(** * Workflow execution engine (workflow-engine-core.ts)

    A shallow embedding of the engine's data model, scheduler, input router,
    validator and run loop, with the properties of the specification that
    were checked against them, followed by the reducers of the workflow
    store (workflowSlice.ts) and further properties of the engine and of the
    store.

    Modelling conventions.
    - A JavaScript object used as a string-keyed dictionary ([NodeData]) is
      a [gmap string DataValue] holding the object's own properties; a
      property whose value is [undefined] is a key bound to [VUndefined].
      Such an object is a plain object, with [Object.prototype] as its
      prototype.  The router is modelled on own properties: it agrees with
      the code on every key but the names of the properties of
      [Object.prototype] ([objectPrototypeKeys]), which a read of a missing
      key finds along the prototype chain, and of which [__proto__] is not
      created by an assignment; the properties of the router that depend
      on it exclude these names.  [validateInputs], which tests with [in],
      is modelled with the inherited properties.
    - [Set<string>] is [gset string]; arrays are lists.
    - Optional fields ([x?: T]) are [option T].
    - [new Date()], [Date.now()] and [Math.random()] read an environment
      ([Env]); the run threads the number of clock readings made so far.
    - An asynchronous processor is modelled by what awaiting it yields: the
      lines it logged on the context it was handed, and either the
      [NodeData] it resolved to or the message of the error it rejected
      with.  The engine awaits every processor before going on, so a run is
      sequential.
    - The recursive closures [visit] and [hasCycle] take fuel; that the
      fuel the model gives them is never used up is proved, not assumed.
    - A method that can throw returns an [Outcome]: the value it returned,
      or the message of the [Error] it threw.
    - A reducer of the store, written against a draft of the state, is a
      function from the state and the payload to the next state; a reducer
      that reads the clock takes the time it reads. *)

From Stdlib Require Import ZArith.
From stdpp Require Import gmap strings list relations.

#[local] Set Warnings "-clear-no-such-hyp".

(** ** Data model *)

Inductive NodeType :=
  | action | trigger | table | page | email | invoice | report | notification.

Inductive ExecutionStatus :=
  | pending | running | completed | failed | skipped.

#[global] Instance NodeType_eq_dec : EqDecision NodeType.
Proof. solve_decision. Defined.

#[global] Instance ExecutionStatus_eq_dec : EqDecision ExecutionStatus.
Proof. solve_decision. Defined.

(** [DataValue = string | number | boolean | object | null | undefined].
    Numbers that occur in the engine are integers. *)
#[local] Unset Elimination Schemes.
Inductive DataValue :=
  | VString (s : string)
  | VNumber (n : Z)
  | VBoolean (b : bool)
  | VArray (items : list DataValue)
  | VObject (fields : list (string * DataValue))
  | VNull
  | VUndefined.
#[local] Set Elimination Schemes.

Abbreviation NodeData := (gmap string DataValue).

Record NodeConnection := {
  conn_id : string;
  conn_sourceNodeId : string;
  conn_targetNodeId : string;
  conn_sourceOutput : string;
  conn_targetInput : string;
  conn_label : option string
}.

(** [BaseNodeConfig].  The fields that the variants add (apiEndpoint,
    tableName, recipients, ...) and the canvas position are read neither by
    the engine nor by the validator. *)
Record NodeConfig := {
  node_id : string;
  node_type : NodeType;
  node_name : string;
  node_description : option string;
  node_enabled : bool;
  node_retryCount : option Z;
  node_timeout : option Z
}.

Inductive ErrorHandling := stop | continue | retry.

#[global] Instance ErrorHandling_eq_dec : EqDecision ErrorHandling.
Proof. solve_decision. Defined.

Record Settings := {
  maxExecutionTime : option Z;
  maxRetries : option Z;
  errorHandling : ErrorHandling
}.

Record Workflow := {
  wf_id : string;
  wf_name : string;
  wf_version : string;
  wf_isActive : bool;
  nodes : list NodeConfig;
  connections : list NodeConnection;
  variables : option NodeData;
  settings : Settings
}.

(** A point in time, as milliseconds. *)
Abbreviation Date := Z (only parsing).

Record NodeExecutionContext := {
  ctx_nodeId : string;
  ctx_workflowId : string;
  ctx_executionId : string;
  inputData : NodeData;
  outputData : NodeData;
  ctx_status : ExecutionStatus;
  ctx_startTime : option Date;
  ctx_endTime : option Date;
  ctx_error : option string;
  logs : list string
}.

Record WorkflowExecution := {
  exec_id : string;
  exec_workflowId : string;
  exec_status : ExecutionStatus;
  exec_startTime : Date;
  exec_endTime : option Date;
  triggerData : option NodeData;
  nodeExecutions : list NodeExecutionContext;
  exec_error : option string
}.

(** ** JavaScript primitives used by the engine *)

(** [o[k]]: the value of an own property, [undefined] when there is none. *)
Definition getProp (o : NodeData) (k : string) : DataValue :=
  default VUndefined (o !! k).

(** [Object.assign(target, source)]: every own property of [source] is
    written into [target], overwriting what [target] had under that key. *)
Definition Object_assign (target source : NodeData) : NodeData :=
  source ∪ target.

(** [array.find(x => x.key === k)]: the first element that matches. *)
Definition findBy {A} (key : A → string) (k : string) (l : list A) : option A :=
  List.find (λ x, bool_decide (key x = k)) l.

(** ** Input router: [getNodeInputData] *)

Definition isTrigger (node : NodeConfig) : bool :=
  bool_decide (node_type node = trigger).

Definition incomingConnections (workflow : Workflow) (nodeId : string)
  : list NodeConnection :=
  filter (λ conn, conn_targetNodeId conn = nodeId) (connections workflow).

(** Body of the loop over the incoming connections. *)
Definition routeConnection (execution : WorkflowExecution)
    (inputData : NodeData) (connection : NodeConnection) : NodeData :=
  match findBy ctx_nodeId (conn_sourceNodeId connection)
               (nodeExecutions execution) with
  | Some sourceExecution =>
      if bool_decide (ctx_status sourceExecution = completed)
      then <[conn_targetInput connection :=
               getProp (outputData sourceExecution)
                       (conn_sourceOutput connection)]> inputData
      else inputData
  | None => inputData
  end.

Definition getNodeInputData (node : NodeConfig) (workflow : Workflow)
    (execution : WorkflowExecution) : NodeData :=
  let inputData : NodeData := ∅ in
  let inputData :=
    foldl (routeConnection execution) inputData
          (incomingConnections workflow (node_id node)) in
  let inputData :=
    match variables workflow with
    | Some vars => Object_assign inputData vars
    | None => inputData
    end in
  if isTrigger node then
    match triggerData execution with
    | Some td => Object_assign inputData td
    | None => inputData
    end
  else inputData.

(** ** Topological scheduler: [getExecutionOrder] *)

(** The two variables that the closure [visit] captures. *)
Record VisitState := {
  visited : gset string;
  order : list string
}.

(** [list.forEach(f)] for a callback that updates a state and may run out
    of fuel. *)
Fixpoint forEach {A S : Type} (f : A → S → option S) (l : list A) (s : S)
  : option S :=
  match l with
  | [] => Some s
  | x :: l' =>
      match f x s with
      | Some s' => forEach f l' s'
      | None => None
      end
  end.

(** The ids that [nodeId] depends on: the sources of the connections that
    target it, in the order of [workflow.connections]. *)
Definition dependenciesOf (workflow : Workflow) (nodeId : string) : list string :=
  conn_sourceNodeId <$> incomingConnections workflow nodeId.

(** The closure [visit].  It is recursive through [forEach] and not
    structurally so; [fuel] bounds the depth of the nested calls and [None]
    means the bound was reached. *)
Fixpoint visit (fuel : nat) (workflow : Workflow) (nodeId : string)
    (st : VisitState) : option VisitState :=
  match fuel with
  | O => None
  | S fuel' =>
      if decide (nodeId ∈ visited st) then Some st
      else
        let st := {| visited := {[nodeId]} ∪ visited st; order := order st |} in
        match forEach (visit fuel' workflow) (dependenciesOf workflow nodeId) st with
        | Some st => Some {| visited := visited st; order := order st ++ [nodeId] |}
        | None => None
        end
  end.

Definition triggerNodes (workflow : Workflow) : list NodeConfig :=
  filter (λ node, node_type node = trigger) (nodes workflow).

Definition getExecutionOrder_fuel (fuel : nat) (workflow : Workflow)
  : option (list string) :=
  order <$> forEach (visit fuel workflow) (node_id <$> triggerNodes workflow)
                    {| visited := ∅; order := [] |}.

(** A call of [visit] that gets past the guard marks an id that was not
    marked before, and every id but the outermost is the source of a
    connection, so no chain of nested calls is longer than this.  The same
    holds of [hasCycle] below, with the targets of connections. *)
Definition visitDepth (workflow : Workflow) : nat :=
  S (S (length (connections workflow))).

(** [getExecutionOrder], with the fuel that always suffices (shown below as
    [getExecutionOrder_fuel_returns]): the default is never taken. *)
Definition getExecutionOrder (workflow : Workflow) : list string :=
  default [] (getExecutionOrder_fuel (visitDepth workflow) workflow).

(** ** Integrity validator: [WorkflowUtils] *)

Record CycleState := {
  cs_visited : gset string;
  recursionStack : gset string
}.

(** [for (const x of l) { if (f(x)) return true; } ... return false] *)
Fixpoint forSome {A S : Type} (f : A → S → option (bool * S)) (l : list A) (s : S)
  : option (bool * S) :=
  match l with
  | [] => Some (false, s)
  | x :: l' =>
      match f x s with
      | Some (true, s') => Some (true, s')
      | Some (false, s') => forSome f l' s'
      | None => None
      end
  end.

Definition outgoingConnections (workflow : Workflow) (nodeId : string)
  : list NodeConnection :=
  filter (λ conn, conn_sourceNodeId conn = nodeId) (connections workflow).

(** What [hasCycle] calls [dependencies]: the targets of the connections
    that leave [nodeId]. *)
Definition successorsOf (workflow : Workflow) (nodeId : string) : list string :=
  conn_targetNodeId <$> outgoingConnections workflow nodeId.

Fixpoint hasCycle (fuel : nat) (workflow : Workflow) (nodeId : string)
    (st : CycleState) : option (bool * CycleState) :=
  match fuel with
  | O => None
  | S fuel' =>
      if decide (nodeId ∈ recursionStack st) then Some (true, st)
      else if decide (nodeId ∈ cs_visited st) then Some (false, st)
      else
        let st := {| cs_visited := {[nodeId]} ∪ cs_visited st;
                     recursionStack := {[nodeId]} ∪ recursionStack st |} in
        match forSome (hasCycle fuel' workflow) (successorsOf workflow nodeId) st with
        | Some (true, st) => Some (true, st)
        | Some (false, st) =>
            Some (false, {| cs_visited := cs_visited st;
                            recursionStack := recursionStack st ∖ {[nodeId]} |})
        | None => None
        end
  end.

Definition hasCircularDependencies_fuel (fuel : nat) (workflow : Workflow)
  : option bool :=
  fst <$> forSome (hasCycle fuel workflow) (node_id <$> nodes workflow)
                  {| cs_visited := ∅; recursionStack := ∅ |}.

(** [hasCircularDependencies], with the fuel that always suffices (shown
    below as [hasCircularDependencies_fuel_mono]): the default is never
    taken. *)
Definition hasCircularDependencies (workflow : Workflow) : bool :=
  default false (hasCircularDependencies_fuel (visitDepth workflow) workflow).

Record ValidationResult := {
  isValid : bool;
  errors : list string
}.

(** Body of the loop over the connections in [validateWorkflow]. *)
Definition validateConnection (workflow : Workflow) (errors : list string)
    (connection : NodeConnection) : list string :=
  let sourceNode := findBy node_id (conn_sourceNodeId connection) (nodes workflow) in
  let targetNode := findBy node_id (conn_targetNodeId connection) (nodes workflow) in
  let errors :=
    if sourceNode is None
    then errors ++ ["Connection references non-existent source node: "
                    +:+ conn_sourceNodeId connection]
    else errors in
  if targetNode is None
  then errors ++ ["Connection references non-existent target node: "
                  +:+ conn_targetNodeId connection]
  else errors.

Definition validateWorkflow (workflow : Workflow) : ValidationResult :=
  let errors : list string := [] in
  let errors :=
    if bool_decide (length (triggerNodes workflow) = 0)
    then errors ++ ["Workflow must have at least one trigger node"]
    else errors in
  let errors :=
    if hasCircularDependencies workflow
    then errors ++ ["Workflow contains circular dependencies"]
    else errors in
  let errors := foldl (validateConnection workflow) errors (connections workflow) in
  {| isValid := bool_decide (length errors = 0); errors := errors |}.

(** ** Node processors *)

(** What awaiting [processor.execute(context)] yields: the lines pushed on
    [context.logs] and the resolved output, or the message of the rejection
    ([error.message] for an [Error], [String(error)] otherwise). *)
Inductive Settled :=
  | Resolved (lines : list string) (output : NodeData)
  | Rejected (lines : list string) (message : string).

Definition Processor : Type := NodeExecutionContext → Settled.

(** The readings that a run takes from its surroundings: the generated
    execution id, the clock at its n-th reading, and what the simulated
    processor draws at that point ([toISOString()] of the clock,
    [Date.now()] in decimal, [Math.floor(Math.random() * 10)]). *)
Record Env := {
  env_executionId : string;
  env_now : nat → Date;
  env_isoString : nat → string;
  env_millis : nat → string;
  env_randomDigit : nat → Z
}.

(** [MockAIProcessor.execute], for a processor built on [config] and run at
    reading [r] of the environment. *)
Definition MockAIProcessor (env : Env) (r : nat) (config : NodeConfig) : Processor :=
  λ context,
    let line := "[" +:+ env_isoString env r +:+ "] "
                +:+ "Executing mock AI process for node " +:+ node_name config in
    Resolved [line]
      match node_type config with
      | action =>
          {[ "success" := VBoolean true;
             "data" := VString ("Mock API response for " +:+ node_name config) ]}
      | table => {[ "recordsAffected" := VNumber (env_randomDigit env r + 1) ]}
      | email =>
          {[ "sent" := VBoolean true;
             "messageId" := VString ("msg_" +:+ env_millis env r) ]}
      | notification =>
          {[ "delivered" := VBoolean true;
             "recipients" := VArray [VString "user@example.com"] ]}
      | _ => {[ "processed" := VBoolean true ]}
      end.

(** ** [BaseNodeProcessor.validateInputs] *)

(** How a call that may throw ends: with a value, or with an [Error] of the
    given message. *)
Inductive Outcome (A : Type) : Type :=
  | Returned (value : A)
  | Threw (message : string).

Arguments Returned {A} value.
Arguments Threw {A} message.

(** [v === undefined] *)
Definition isUndefined (v : DataValue) : bool :=
  match v with
  | VUndefined => true
  | _ => false
  end.

(** The names of the properties of [Object.prototype].  A plain object has
    them beside its own properties, inherited from its prototype: each is
    a function, and [__proto__] an accessor that yields the prototype, so
    none of them reads [undefined]. *)
Definition objectPrototypeKeys : list string :=
  ["constructor"; "hasOwnProperty"; "isPrototypeOf"; "propertyIsEnumerable";
   "toLocaleString"; "toString"; "valueOf"; "__proto__";
   "__defineGetter__"; "__defineSetter__";
   "__lookupGetter__"; "__lookupSetter__"].

(** [k] names a property of [Object.prototype]. *)
Definition inherited (k : string) : bool :=
  bool_decide (k ∈ objectPrototypeKeys).

(** [k in o]: [o] has a property [k], its own or inherited. *)
Definition hasProperty (o : NodeData) (k : string) : bool :=
  bool_decide (is_Some (o !! k)) || inherited k.

(** [o[k] === undefined].  An own property shadows an inherited one; an
    inherited one is not [undefined]; a property that [o] does not have
    reads [undefined]. *)
Definition readsUndefined (o : NodeData) (k : string) : bool :=
  match o !! k with
  | Some v => isUndefined v
  | None => negb (inherited k)
  end.

(** [validateInputs(context, requiredFields)]: the loop throws at the first
    field that is not in [context.inputData] or is [undefined] there. *)
Fixpoint validateInputs (context : NodeExecutionContext)
    (requiredFields : list string) : Outcome bool :=
  match requiredFields with
  | [] => Returned true
  | field :: rest =>
      if negb (hasProperty (inputData context) field)
         || readsUndefined (inputData context) field
      then Threw ("Required input field '" +:+ field +:+ "' is missing")
      else validateInputs context rest
  end.

(** [field] is a property of the input of [context], its own or inherited
    from [Object.prototype], and its value is not [undefined]. *)
Definition provided (context : NodeExecutionContext) (field : string) : Prop :=
  match inputData context !! field with
  | Some v => v ≠ VUndefined
  | None => inherited field = true
  end.

(** ** Execution engine *)

Record WorkflowExecutionEngine := {
  processors : gmap string Processor
}.

Definition registerProcessor (engine : WorkflowExecutionEngine)
    (nodeId : string) (processor : Processor) : WorkflowExecutionEngine :=
  {| processors := <[nodeId := processor]> (processors engine) |}.

(** The objects a run can reach: the workflow it was handed, the execution
    record it builds, and how often it has read the clock. *)
Record RunState := {
  rs_workflow : Workflow;
  rs_execution : WorkflowExecution;
  rs_reads : nat
}.

(** How an iteration of the loop over the execution order ends. *)
Inductive Step :=
  | Next (st : RunState)
  | Break (st : RunState).

Fixpoint forOf {A : Type} (body : A → RunState → Step) (l : list A) (st : RunState)
  : RunState :=
  match l with
  | [] => st
  | x :: l' =>
      match body x st with
      | Next st' => forOf body l' st'
      | Break st' => st'
      end
  end.

(** [execution.nodeExecutions.push(nodeContext)] *)
Definition pushNodeExecution (execution : WorkflowExecution)
    (nodeContext : NodeExecutionContext) : WorkflowExecution :=
  {| exec_id := exec_id execution;
     exec_workflowId := exec_workflowId execution;
     exec_status := exec_status execution;
     exec_startTime := exec_startTime execution;
     exec_endTime := exec_endTime execution;
     triggerData := triggerData execution;
     nodeExecutions := nodeExecutions execution ++ [nodeContext];
     exec_error := exec_error execution |}.

(** [execution.status = 'failed'; execution.error = message] *)
Definition failExecution (execution : WorkflowExecution) (message : string)
  : WorkflowExecution :=
  {| exec_id := exec_id execution;
     exec_workflowId := exec_workflowId execution;
     exec_status := failed;
     exec_startTime := exec_startTime execution;
     exec_endTime := exec_endTime execution;
     triggerData := triggerData execution;
     nodeExecutions := nodeExecutions execution;
     exec_error := Some message |}.

(** [if (execution.status !== 'failed') execution.status = 'completed'] *)
Definition completeUnlessFailed (execution : WorkflowExecution) : WorkflowExecution :=
  {| exec_id := exec_id execution;
     exec_workflowId := exec_workflowId execution;
     exec_status :=
       if bool_decide (exec_status execution ≠ failed) then completed
       else exec_status execution;
     exec_startTime := exec_startTime execution;
     exec_endTime := exec_endTime execution;
     triggerData := triggerData execution;
     nodeExecutions := nodeExecutions execution;
     exec_error := exec_error execution |}.

(** [execution.endTime = now] *)
Definition stampEndTime (execution : WorkflowExecution) (now : Date)
  : WorkflowExecution :=
  {| exec_id := exec_id execution;
     exec_workflowId := exec_workflowId execution;
     exec_status := exec_status execution;
     exec_startTime := exec_startTime execution;
     exec_endTime := Some now;
     triggerData := triggerData execution;
     nodeExecutions := nodeExecutions execution;
     exec_error := exec_error execution |}.

(** The context as the [try] branch leaves it after a resolved processor. *)
Definition contextCompleted (nodeContext : NodeExecutionContext)
    (lines : list string) (output : NodeData) (now : Date) : NodeExecutionContext :=
  {| ctx_nodeId := ctx_nodeId nodeContext;
     ctx_workflowId := ctx_workflowId nodeContext;
     ctx_executionId := ctx_executionId nodeContext;
     inputData := inputData nodeContext;
     outputData := output;
     ctx_status := completed;
     ctx_startTime := ctx_startTime nodeContext;
     ctx_endTime := Some now;
     ctx_error := ctx_error nodeContext;
     logs := logs nodeContext ++ lines |}.

(** The context as the [catch] branch leaves it after a rejected processor. *)
Definition contextFailed (nodeContext : NodeExecutionContext)
    (lines : list string) (message : string) (now : Date) : NodeExecutionContext :=
  {| ctx_nodeId := ctx_nodeId nodeContext;
     ctx_workflowId := ctx_workflowId nodeContext;
     ctx_executionId := ctx_executionId nodeContext;
     inputData := inputData nodeContext;
     outputData := outputData nodeContext;
     ctx_status := failed;
     ctx_startTime := ctx_startTime nodeContext;
     ctx_endTime := Some now;
     ctx_error := Some message;
     logs := logs nodeContext ++ lines |}.

(** Body of [for (const nodeId of executionOrder)]. *)
Definition runNode (engine : WorkflowExecutionEngine) (env : Env)
    (nodeId : string) (st : RunState) : Step :=
  let workflow := rs_workflow st in
  let execution := rs_execution st in
  match findBy node_id nodeId (nodes workflow) with
  | None => Next st
  | Some node =>
      if negb (node_enabled node) then Next st
      else
        let r := rs_reads st in
        let nodeContext :=
          {| ctx_nodeId := node_id node;
             ctx_workflowId := wf_id workflow;
             ctx_executionId := exec_id execution;
             inputData := getNodeInputData node workflow execution;
             outputData := ∅;
             ctx_status := running;
             ctx_startTime := Some (env_now env r);
             ctx_endTime := None;
             ctx_error := None;
             logs := [] |} in
        let processor :=
          default (MockAIProcessor env r node) (processors engine !! nodeId) in
        match processor nodeContext with
        | Resolved lines output =>
            let nodeContext :=
              contextCompleted nodeContext lines output (env_now env (S r)) in
            Next {| rs_workflow := workflow;
                    rs_execution := pushNodeExecution execution nodeContext;
                    rs_reads := S (S r) |}
        | Rejected lines message =>
            let nodeContext :=
              contextFailed nodeContext lines message (env_now env (S r)) in
            if bool_decide (errorHandling (settings workflow) = stop)
            then
              Break {| rs_workflow := workflow;
                       rs_execution :=
                         failExecution execution
                           ("Node " +:+ node_name node +:+ " failed: " +:+ message);
                       rs_reads := S (S r) |}
            else
              Next {| rs_workflow := workflow;
                      rs_execution := pushNodeExecution execution nodeContext;
                      rs_reads := S (S r) |}
        end
  end.

(** How the outer [try] block ends: normally, or with a thrown message. *)
Inductive Completion :=
  | Normal (st : RunState)
  | Thrown (message : string) (st : RunState).

Definition tryBlock (engine : WorkflowExecutionEngine) (env : Env) (st : RunState)
  : Completion :=
  let workflow := rs_workflow st in
  let triggerNodes := triggerNodes workflow in
  if bool_decide (length triggerNodes = 0)
  then Thrown "No trigger nodes found in workflow" st
  else
    let executionOrder := getExecutionOrder workflow in
    let st := forOf (runNode engine env) executionOrder st in
    Normal {| rs_workflow := rs_workflow st;
              rs_execution := completeUnlessFailed (rs_execution st);
              rs_reads := rs_reads st |}.

(** The run as a transformation of the reachable objects. *)
Definition executeWorkflow_run (engine : WorkflowExecutionEngine) (env : Env)
    (workflow : Workflow) (triggerData : option NodeData) : RunState :=
  let execution :=
    {| exec_id := env_executionId env;
       exec_workflowId := wf_id workflow;
       exec_status := running;
       exec_startTime := env_now env 0;
       exec_endTime := None;
       triggerData := triggerData;
       nodeExecutions := [];
       exec_error := None |} in
  let st := {| rs_workflow := workflow; rs_execution := execution; rs_reads := 1 |} in
  let st :=
    match tryBlock engine env st with
    | Normal st => st
    | Thrown message st =>
        {| rs_workflow := rs_workflow st;
           rs_execution := failExecution (rs_execution st) message;
           rs_reads := rs_reads st |}
    end in
  {| rs_workflow := rs_workflow st;
     rs_execution := stampEndTime (rs_execution st) (env_now env (rs_reads st));
     rs_reads := S (rs_reads st) |}.

(** [executeWorkflow]: the execution record that the run returns. *)
Definition executeWorkflow (engine : WorkflowExecutionEngine) (env : Env)
    (workflow : Workflow) (triggerData : option NodeData) : WorkflowExecution :=
  rs_execution (executeWorkflow_run engine env workflow triggerData).

(** ** The connection graph *)

(** [edge workflow a b]: some connection leads from [a] to [b]. *)
Definition edge (workflow : Workflow) (a b : string) : Prop :=
  ∃ conn, conn ∈ connections workflow
          ∧ conn_sourceNodeId conn = a ∧ conn_targetNodeId conn = b.

(** Reachable along connections, source to target, from the id of a trigger
    node of the workflow (the trigger's own id included). *)
Definition reachableFromTrigger (workflow : Workflow) (x : string) : Prop :=
  ∃ t, t ∈ triggerNodes workflow ∧ rtc (edge workflow) (node_id t) x.

(** Upstream of a trigger node: the id of a trigger, or an id from which
    connections, source to target, lead to one. *)
Definition reachesTrigger (workflow : Workflow) (x : string) : Prop :=
  ∃ t, t ∈ triggerNodes workflow ∧ rtc (edge workflow) x (node_id t).

(** No connection cycle: no id reaches itself by one or more connections. *)
Definition acyclic (workflow : Workflow) : Prop :=
  ∀ x, ¬ tc (edge workflow) x x.

(** [a] occurs in [l] at a position before an occurrence of [b]. *)
Definition before (a b : string) (l : list string) : Prop :=
  ∃ l1 l2 l3, l = l1 ++ a :: l2 ++ b :: l3.

(** [hay.includes(needle)] *)
Fixpoint includes (hay needle : string) : bool :=
  String.prefix needle hay
  || match hay with
     | EmptyString => false
     | String _ hay' => includes hay' needle
     end.

(** ** The workflow store ([workflowSlice.ts])

    The reducers are written against drafts of the state, which gives them
    value semantics: each is a function from the state and the payload of
    the action to the next state.  [updateNodePosition] is left out, the
    canvas position not being part of [NodeConfig] here. *)

(** A [Workflow] as the store holds it: the fields that the engine reads,
    and the two timestamps that the TypeScript record has beside them. *)
Record StoredWorkflow := {
  stored : Workflow;
  createdAt : Date;
  updatedAt : Date
}.

Record WorkflowState := {
  workflows : list StoredWorkflow;
  currentWorkflow : option StoredWorkflow;
  executions : list WorkflowExecution;
  isLoading : bool;
  error : option string
}.

Definition initialState : WorkflowState :=
  {| workflows := []; currentWorkflow := None; executions := [];
     isLoading := false; error := None |}.

Definition storedId (w : StoredWorkflow) : string := wf_id (stored w).

(** [workflow.nodes = nodes] and [workflow.connections = connections] *)
Definition withGraph (workflow : Workflow) (nodes : list NodeConfig)
    (connections : list NodeConnection) : Workflow :=
  {| wf_id := wf_id workflow; wf_name := wf_name workflow;
     wf_version := wf_version workflow; wf_isActive := wf_isActive workflow;
     nodes := nodes; connections := connections;
     variables := variables workflow; settings := settings workflow |}.

(** The current workflow with a new graph and [updatedAt = new Date()]. *)
Definition touched (w : StoredWorkflow) (nodes : list NodeConfig)
    (connections : list NodeConnection) (now : Date) : StoredWorkflow :=
  {| stored := withGraph (stored w) nodes connections;
     createdAt := createdAt w;
     updatedAt := now |}.

Definition withWorkflows (state : WorkflowState) (workflows : list StoredWorkflow)
    (current : option StoredWorkflow) : WorkflowState :=
  {| workflows := workflows; currentWorkflow := current;
     executions := executions state; isLoading := isLoading state;
     error := error state |}.

Definition withCurrent (state : WorkflowState) (current : StoredWorkflow)
  : WorkflowState :=
  withWorkflows state (workflows state) (Some current).

(** [array.findIndex(x => x.key === k)], [None] for [-1]. *)
Definition findIndexBy {A} (key : A → string) (k : string) (l : list A) : option nat :=
  fst <$> list_find (λ x, key x = k) l.

Definition setWorkflows (state : WorkflowState) (payload : list StoredWorkflow)
  : WorkflowState :=
  withWorkflows state payload (currentWorkflow state).

Definition addWorkflow (state : WorkflowState) (payload : StoredWorkflow)
  : WorkflowState :=
  withWorkflows state (workflows state ++ [payload]) (currentWorkflow state).

Definition updateWorkflow (state : WorkflowState) (payload : StoredWorkflow)
  : WorkflowState :=
  let workflows :=
    match findIndexBy storedId (storedId payload) (workflows state) with
    | Some index => <[index := payload]> (workflows state)
    | None => workflows state
    end in
  let current :=
    match currentWorkflow state with
    | Some current =>
        if bool_decide (storedId current = storedId payload)
        then Some payload else Some current
    | None => None
    end in
  withWorkflows state workflows current.

Definition deleteWorkflow (state : WorkflowState) (payload : string)
  : WorkflowState :=
  let workflows := filter (λ w, storedId w ≠ payload) (workflows state) in
  let current :=
    match currentWorkflow state with
    | Some current =>
        if bool_decide (storedId current = payload) then None else Some current
    | None => None
    end in
  withWorkflows state workflows current.

Definition setCurrentWorkflow (state : WorkflowState)
    (payload : option StoredWorkflow) : WorkflowState :=
  withWorkflows state (workflows state) payload.

Definition addNodeToCurrentWorkflow (now : Date) (state : WorkflowState)
    (payload : NodeConfig) : WorkflowState :=
  match currentWorkflow state with
  | Some current =>
      withCurrent state
        (touched current (nodes (stored current) ++ [payload])
                 (connections (stored current)) now)
  | None => state
  end.

Definition updateNodeInCurrentWorkflow (now : Date) (state : WorkflowState)
    (payload : NodeConfig) : WorkflowState :=
  match currentWorkflow state with
  | Some current =>
      match findIndexBy node_id (node_id payload) (nodes (stored current)) with
      | Some index =>
          withCurrent state
            (touched current (<[index := payload]> (nodes (stored current)))
                     (connections (stored current)) now)
      | None => state
      end
  | None => state
  end.

Definition deleteNodeFromCurrentWorkflow (now : Date) (state : WorkflowState)
    (payload : string) : WorkflowState :=
  match currentWorkflow state with
  | Some current =>
      withCurrent state
        (touched current
           (filter (λ n, node_id n ≠ payload) (nodes (stored current)))
           (filter (λ c, conn_sourceNodeId c ≠ payload
                         ∧ conn_targetNodeId c ≠ payload)
                   (connections (stored current)))
           now)
  | None => state
  end.

Definition addConnectionToCurrentWorkflow (now : Date) (state : WorkflowState)
    (payload : NodeConnection) : WorkflowState :=
  match currentWorkflow state with
  | Some current =>
      withCurrent state
        (touched current (nodes (stored current))
                 (connections (stored current) ++ [payload]) now)
  | None => state
  end.

Definition deleteConnectionFromCurrentWorkflow (now : Date) (state : WorkflowState)
    (payload : string) : WorkflowState :=
  match currentWorkflow state with
  | Some current =>
      withCurrent state
        (touched current (nodes (stored current))
                 (filter (λ c, conn_id c ≠ payload) (connections (stored current)))
                 now)
  | None => state
  end.

Definition addExecution (state : WorkflowState) (payload : WorkflowExecution)
  : WorkflowState :=
  {| workflows := workflows state; currentWorkflow := currentWorkflow state;
     executions := executions state ++ [payload]; isLoading := isLoading state;
     error := error state |}.

(** Both ends of every connection are ids of nodes of the workflow. *)
Definition attached (workflow : Workflow) : Prop :=
  ∀ conn, conn ∈ connections workflow →
          (∃ node, node ∈ nodes workflow ∧ node_id node = conn_sourceNodeId conn)
          ∧ (∃ node, node ∈ nodes workflow ∧ node_id node = conn_targetNodeId conn).

(** ** Workflows used as examples *)

Definition mkNode (id : string) (type : NodeType) (name : string) : NodeConfig :=
  {| node_id := id; node_type := type; node_name := name;
     node_description := None; node_enabled := true;
     node_retryCount := None; node_timeout := None |}.

Definition mkConnection (id source target output input : string) : NodeConnection :=
  {| conn_id := id; conn_sourceNodeId := source; conn_targetNodeId := target;
     conn_sourceOutput := output; conn_targetInput := input; conn_label := None |}.

Definition mkWorkflow (nodes : list NodeConfig) (connections : list NodeConnection)
    (variables : option NodeData) (mode : ErrorHandling) : Workflow :=
  {| wf_id := "wf"; wf_name := "example"; wf_version := "1.0.0"; wf_isActive := true;
     nodes := nodes; connections := connections; variables := variables;
     settings := {| maxExecutionTime := None; maxRetries := None;
                    errorHandling := mode |} |}.

(** [Trigger → A → B] *)
Definition chainWorkflow (mode : ErrorHandling) : Workflow :=
  mkWorkflow
    [mkNode "t" trigger "Trigger"; mkNode "a" action "A"; mkNode "b" action "B"]
    [mkConnection "c1" "t" "a" "out" "in"; mkConnection "c2" "a" "b" "out" "in"]
    None mode.

(** A workflow with the trigger as its only node. *)
Definition triggerOnlyWorkflow (mode : ErrorHandling) : Workflow :=
  mkWorkflow [mkNode "t" trigger "Trigger"] [] None mode.

(** [Trigger → A → Trigger]: a cycle through the trigger. *)
Definition cyclicWorkflow : Workflow :=
  mkWorkflow
    [mkNode "t" trigger "Trigger"; mkNode "a" action "A"]
    [mkConnection "c1" "t" "a" "out" "in"; mkConnection "c2" "a" "t" "out" "in"]
    None stop.

(** [A → Trigger]: a trigger that depends on an upstream node, with the
    variable [x = 1] and a second variable that collides with the routed
    input [in]. *)
Definition upstreamWorkflow : Workflow :=
  mkWorkflow
    [mkNode "t" trigger "Trigger"; mkNode "a" action "A"]
    [mkConnection "c1" "a" "t" "out" "in"]
    (Some {[ "x" := VNumber 1; "in" := VString "global" ]}) continue.

(** A workflow without trigger nodes. *)
Definition noTriggerWorkflow : Workflow :=
  mkWorkflow [mkNode "a" action "A"; mkNode "b" action "B"]
             [mkConnection "c1" "a" "b" "out" "in"] None stop.

Definition succeedWith (output : NodeData) : Processor :=
  λ _, Resolved [] output.

Definition alwaysFails (message : string) : Processor :=
  λ _, Rejected [] message.

(** Processors for [t], [a] and [b]: [a] always raises, the others succeed. *)
Definition failingAEngine : WorkflowExecutionEngine :=
  registerProcessor
    (registerProcessor
       (registerProcessor {| processors := ∅ |}
          "t" (succeedWith {[ "out" := VNumber 7 ]}))
       "a" (alwaysFails "boom"))
    "b" (succeedWith ∅).

(** A processor for [t] that always raises. *)
Definition failingTriggerEngine : WorkflowExecutionEngine :=
  registerProcessor {| processors := ∅ |} "t" (alwaysFails "boom").

Definition exampleEnv : Env :=
  {| env_executionId := "exec_1700000000000_k3x9q2m1z";
     env_now := λ n, (1700000000000 + Z.of_nat n)%Z;
     env_isoString := λ _, "2023-11-14T22:13:20.000Z";
     env_millis := λ _, "1700000000000";
     env_randomDigit := λ _, 4%Z |}.

(** An execution record as the run has it when the contexts [done] have been
    appended. *)
Definition executionWith (done : list NodeExecutionContext)
    (triggerData : option NodeData) : WorkflowExecution :=
  {| exec_id := "exec_1"; exec_workflowId := "wf"; exec_status := running;
     exec_startTime := 0%Z; exec_endTime := None; triggerData := triggerData;
     nodeExecutions := done; exec_error := None |}.

(** The context of a node that completed with [output]. *)
Definition completedContext (nodeId : string) (output : NodeData)
  : NodeExecutionContext :=
  {| ctx_nodeId := nodeId; ctx_workflowId := "wf"; ctx_executionId := "exec_1";
     inputData := ∅; outputData := output; ctx_status := completed;
     ctx_startTime := Some 0%Z; ctx_endTime := Some 1%Z; ctx_error := None;
     logs := [] |}.



(** ** Further examples *)

(** [A → Trigger] without variables. *)
Definition routedWorkflow (mode : ErrorHandling) : Workflow :=
  mkWorkflow
    [mkNode "t" trigger "Trigger"; mkNode "a" action "A"]
    [mkConnection "c1" "a" "t" "out" "in"] None mode.

(** Processors for [a] and [t] that resolve; [a] outputs [out = 7]. *)
Definition resolvingEngine : WorkflowExecutionEngine :=
  registerProcessor
    (registerProcessor {| processors := ∅ |}
       "a" (succeedWith {[ "out" := VNumber 7 ]}))
    "t" (succeedWith ∅).

(** A store whose current workflow is the chain [Trigger → A → B]. *)
Definition exampleStored : StoredWorkflow :=
  {| stored := chainWorkflow stop; createdAt := 0%Z; updatedAt := 0%Z |}.

Definition exampleState : WorkflowState :=
  {| workflows := [exampleStored]; currentWorkflow := Some exampleStored;
     executions := []; isLoading := false; error := None |}.

(** The contexts that the run of [routedWorkflow] with [resolvingEngine]
    records in [exampleEnv]. *)
Definition recordedA : NodeExecutionContext :=
  {| ctx_nodeId := "a"; ctx_workflowId := "wf";
     ctx_executionId := env_executionId exampleEnv;
     inputData := ∅; outputData := {[ "out" := VNumber 7 ]};
     ctx_status := completed;
     ctx_startTime := Some (env_now exampleEnv 1);
     ctx_endTime := Some (env_now exampleEnv 2);
     ctx_error := None; logs := [] |}.

Definition recordedT : NodeExecutionContext :=
  {| ctx_nodeId := "t"; ctx_workflowId := "wf";
     ctx_executionId := env_executionId exampleEnv;
     inputData := {[ "in" := VNumber 7 ]}; outputData := ∅;
     ctx_status := completed;
     ctx_startTime := Some (env_now exampleEnv 3);
     ctx_endTime := Some (env_now exampleEnv 4);
     ctx_error := None; logs := [] |}.

(** The chain after [a] was deleted at time [5]: the trigger and [b], and
    no connection. *)
Definition exampleStoredWithoutA : StoredWorkflow :=
  {| stored := mkWorkflow [mkNode "t" trigger "Trigger"; mkNode "b" action "B"]
                          [] None stop;
     createdAt := 0%Z; updatedAt := 5%Z |}.

(** The chain after the connection [b → a] was added at time [5]. *)
Definition exampleStoredWithBack : StoredWorkflow :=
  {| stored :=
       mkWorkflow
         [mkNode "t" trigger "Trigger"; mkNode "a" action "A"; mkNode "b" action "B"]
         [mkConnection "c1" "t" "a" "out" "in"; mkConnection "c2" "a" "b" "out" "in";
          mkConnection "c3" "b" "a" "out" "back"]
         None stop;
     createdAt := 0%Z; updatedAt := 5%Z |}.

(** ** Notions used in the proofs *)

(** What a context that the loop appends looks like. *)
Definition settledContext (nodeContext : NodeExecutionContext) : Prop :=
  (ctx_status nodeContext = completed ∨ ctx_status nodeContext = failed)
  ∧ is_Some (ctx_startTime nodeContext)
  ∧ is_Some (ctx_endTime nodeContext).

(** The ids of the order for which the loop builds a context: those that
    name a node of the workflow (the first of that id) that is enabled. *)
Definition attempted (workflow : Workflow) (nodeId : string) : bool :=
  match findBy node_id nodeId (nodes workflow) with
  | Some node => node_enabled node
  | None => false
  end.

(** [st'] is [st] after some ids, none of them marked in [st], were marked
    and appended to the order. *)
Definition extends (st st' : VisitState) : Prop :=
  ∃ new, order st' = order st ++ new
         ∧ visited st' = list_to_set new ∪ visited st
         ∧ NoDup new
         ∧ ∀ x, x ∈ new → x ∉ visited st.

(** The ids that occur as the source, or as the target, of a connection. *)
Definition sources (workflow : Workflow) : list string :=
  conn_sourceNodeId <$> connections workflow.

Definition targets (workflow : Workflow) : list string :=
  conn_targetNodeId <$> connections workflow.

(** How many of the ids [ids] are not marked yet: the measure that bounds
    the depth of the nested calls of [visit] and of [hasCycle]. *)
Definition unmarked (ids : list string) (marked : gset string) : nat :=
  length (filter (λ x, x ∉ marked) ids).

(** Marked and not yet appended to the order: the ids whose call of [visit]
    has not returned yet. *)
Definition gray (st : VisitState) (x : string) : Prop :=
  x ∈ visited st ∧ x ∉ order st.

(** Every id of the order is marked, and the order has every connection
    into one of its ids go forward. *)
Definition ordered (workflow : Workflow) (st : VisitState) : Prop :=
  (∀ x, x ∈ order st → x ∈ visited st)
  ∧ ∀ a b, edge workflow a b → b ∈ order st → before a b (order st).

(** The contract of [visit] on an acyclic workflow: entered on an id that
    reaches every id whose call is still open, it leaves the order closed
    under dependencies, with the id in it. *)
Definition visitContract (workflow : Workflow) (fuel : nat) : Prop :=
  ∀ nodeId st st',
    visit fuel workflow nodeId st = Some st' →
    ordered workflow st →
    (∀ g, gray st g → tc (edge workflow) nodeId g) →
    ordered workflow st' ∧ nodeId ∈ order st'.

(** The claim of topological soundness, for every connection between ids
    that are reachable from a trigger. *)
Definition topologicallySound (workflow : Workflow) : Prop :=
  ∀ conn, conn ∈ connections workflow →
          reachableFromTrigger workflow (conn_sourceNodeId conn) →
          reachableFromTrigger workflow (conn_targetNodeId conn) →
          before (conn_sourceNodeId conn) (conn_targetNodeId conn)
                 (getExecutionOrder workflow).

(** Marked and no longer on the recursion stack: the ids whose call of
    [hasCycle] returned [false]. *)
Definition black (st : CycleState) (x : string) : Prop :=
  x ∈ cs_visited st ∧ x ∉ recursionStack st.

(** The ids that are done are closed under connections and none of them
    lies on a cycle. *)
Definition cycleFree (workflow : Workflow) (st : CycleState) : Prop :=
  recursionStack st ⊆ cs_visited st
  ∧ (∀ x y, black st x → edge workflow x y → black st y)
  ∧ (∀ x, black st x → ¬ tc (edge workflow) x x).

(** The contract of a call of [hasCycle] that answers [false]. *)
Definition hasCycleContract (workflow : Workflow) (fuel : nat) : Prop :=
  ∀ nodeId st st',
    hasCycle fuel workflow nodeId st = Some (false, st') →
    cycleFree workflow st →
    cycleFree workflow st'
    ∧ recursionStack st' = recursionStack st
    ∧ cs_visited st ⊆ cs_visited st'
    ∧ black st' nodeId.

(** A ranking of the ids of [upstreamWorkflow] that every connection
    increases. *)
Definition upstreamRank (nodeId : string) : nat :=
  if decide (nodeId = "a") then 0 else 1.

(** A ranking of the ids of [chainWorkflow] that every connection
    increases. *)
Definition chainRank (nodeId : string) : nat :=
  if decide (nodeId = "t") then 0 else if decide (nodeId = "a") then 1 else 2.

(** ** Notions used for the properties of a run *)

(** The state of the objects when the [try] block is entered. *)
Definition initialRunState (env : Env) (workflow : Workflow)
    (payload : option NodeData) : RunState :=
  {| rs_workflow := workflow;
     rs_execution :=
       {| exec_id := env_executionId env;
          exec_workflowId := wf_id workflow;
          exec_status := running;
          exec_startTime := env_now env 0;
          exec_endTime := None;
          triggerData := payload;
          nodeExecutions := [];
          exec_error := None |};
     rs_reads := 1 |}.

(** The context that the loop builds for [node] in the state [st]. *)
Definition startedContext (env : Env) (st : RunState) (node : NodeConfig)
  : NodeExecutionContext :=
  {| ctx_nodeId := node_id node;
     ctx_workflowId := wf_id (rs_workflow st);
     ctx_executionId := exec_id (rs_execution st);
     inputData := getNodeInputData node (rs_workflow st) (rs_execution st);
     outputData := ∅;
     ctx_status := running;
     ctx_startTime := Some (env_now env (rs_reads st));
     ctx_endTime := None;
     ctx_error := None;
     logs := [] |}.

(** The processor that the loop picks for [nodeId]: the registered one, or
    the simulated one built on [node]. *)
Definition processorFor (engine : WorkflowExecutionEngine) (env : Env)
    (st : RunState) (node : NodeConfig) (nodeId : string) : Processor :=
  default (MockAIProcessor env (rs_reads st) node) (processors engine !! nodeId).

(** The ids of the contexts that an execution holds, in order. *)
Definition recordedIds (execution : WorkflowExecution) : list string :=
  ctx_nodeId <$> nodeExecutions execution.

(** Every registered processor resolves, whatever context it is handed. *)
Definition allResolve (engine : WorkflowExecutionEngine) : Prop :=
  ∀ nodeId processor context,
    processors engine !! nodeId = Some processor →
    ∃ lines output, processor context = Resolved lines output.

(** [o[k]] is decided by the own properties of [o]: [k] is one of them, or
    no property of [Object.prototype] has that name, so that reading a
    missing [k] gives [undefined]. *)
Definition readsOwn (o : NodeData) (k : string) : Prop :=
  is_Some (o !! k) ∨ inherited k = false.

(** [o[k] = v] creates or overwrites the own property [k]: so for every key
    but [__proto__], under which the assignment calls the setter of the
    prototype. *)
Definition assignable (k : string) : Prop := k ≠ "__proto__".

(** What a connection routes: the value under its source output in the
    record of its source, when that record exists and is [completed]. *)
Definition routedValue (execution : WorkflowExecution) (connection : NodeConnection)
  : option DataValue :=
  match findBy ctx_nodeId (conn_sourceNodeId connection)
               (nodeExecutions execution) with
  | Some sourceExecution =>
      if bool_decide (ctx_status sourceExecution = completed)
      then Some (getProp (outputData sourceExecution)
                         (conn_sourceOutput connection))
      else None
  | None => None
  end.

(** * Properties *)

(** ** Input router *)

Section InputRouter.
Context (node : NodeConfig) (workflow : Workflow) (execution : WorkflowExecution).

(** The input map before the trigger payload is merged in. *)
Lemma getNodeInputData_unfold :
  getNodeInputData node workflow execution =
  let routed := foldl (routeConnection execution) ∅
                      (incomingConnections workflow (node_id node)) in
  let merged := from_option (Object_assign routed) routed (variables workflow) in
  if isTrigger node
  then from_option (Object_assign merged) merged (triggerData execution)
  else merged.
Proof.
  unfold getNodeInputData. simpl.
  destruct (variables workflow), (isTrigger node), (triggerData execution); done.
Qed.


Lemma Object_assign_lookup_target (target source : NodeData) k :
  source !! k = None → Object_assign target source !! k = target !! k.
Proof. intros Hk. unfold Object_assign. by apply lookup_union_r. Qed.



(** A key that neither the variables nor the payload define keeps what the
    connections routed. *)
Lemma routed_output_kept (k : string) :
  from_option (λ vars : NodeData, vars !! k) None (variables workflow) = None →
  (isTrigger node = true →
   from_option (λ td : NodeData, td !! k) None (triggerData execution) = None) →
  getNodeInputData node workflow execution !! k =
  foldl (routeConnection execution) ∅
        (incomingConnections workflow (node_id node)) !! k.
Proof.
  intros Hvars Htd. rewrite getNodeInputData_unfold. simpl.
  assert (from_option
            (Object_assign (foldl (routeConnection execution) ∅
                              (incomingConnections workflow (node_id node))))
            (foldl (routeConnection execution) ∅
               (incomingConnections workflow (node_id node)))
            (variables workflow) !! k
          = foldl (routeConnection execution) ∅
              (incomingConnections workflow (node_id node)) !! k) as Hm.
  { destruct (variables workflow) as [vars|]; simpl in *; [|done].
    by apply Object_assign_lookup_target. }
  destruct (isTrigger node); [|done].
  destruct (triggerData execution) as [td|]; simpl in *; [|done].
  rewrite Object_assign_lookup_target; [done|]. by apply Htd.
Qed.
End InputRouter.




(** ** The run loop *)

Section RunLoop.
Context (engine : WorkflowExecutionEngine) (env : Env).

(** An invariant of the loop state that every iteration keeps holds when the
    loop ends, whether by running out of ids or by [break]. *)
Lemma forOf_invariant {A : Type} (P : RunState → Prop)
    (body : A → RunState → Step) (l : list A) (st : RunState) :
  (∀ x st, P st → match body x st with Next st' | Break st' => P st' end) →
  P st → P (forOf body l st).
Proof.
  intros Hbody. revert st.
  induction l as [|x l IH]; intros st HP; simpl; [done|].
  specialize (Hbody x st HP).
  destruct (body x st) as [st'|st']; [by apply IH | done].
Qed.

(** No statement of the loop body writes to the workflow. *)
Lemma runNode_workflow (nodeId : string) (st : RunState) :
  match runNode engine env nodeId st with
  | Next st' | Break st' => rs_workflow st' = rs_workflow st
  end.
Proof.
  unfold runNode. repeat case_match; by simplify_eq/=.
Qed.

Lemma forOf_runNode_workflow (l : list string) (st : RunState) :
  rs_workflow (forOf (runNode engine env) l st) = rs_workflow st.
Proof.
  apply (forOf_invariant (λ st', rs_workflow st' = rs_workflow st)); [|done].
  intros x st' Hst'. pose proof (runNode_workflow x st') as Hstep.
  destruct (runNode engine env x st'); congruence.
Qed.

(** C9: the run leaves the workflow it was handed as it was: nodes,
    connections, variables and settings are the same after the run as
    before it. *)
Theorem executeWorkflow_preserves_workflow (workflow : Workflow)
    (payload : option NodeData) :
  rs_workflow (executeWorkflow_run engine env workflow payload) = workflow.
Proof.
  unfold executeWorkflow_run, tryBlock. simpl.
  destruct (bool_decide _); simpl; [done|].
  by rewrite forOf_runNode_workflow.
Qed.

Lemma runNode_settled (nodeId : string) (st : RunState) :
  Forall settledContext (nodeExecutions (rs_execution st)) →
  match runNode engine env nodeId st with
  | Next st' | Break st' =>
      Forall settledContext (nodeExecutions (rs_execution st'))
  end.
Proof.
  intros Hst. unfold runNode.
  repeat case_match; simplify_eq/=; try done.
  all: apply Forall_app; split; [done|].
  all: apply Forall_singleton; unfold settledContext; simpl; eauto.
Qed.

Lemma executeWorkflow_all_settled (workflow : Workflow) (payload : option NodeData) :
  Forall settledContext
         (nodeExecutions (executeWorkflow engine env workflow payload)).
Proof.
  unfold executeWorkflow, executeWorkflow_run, tryBlock. simpl.
  destruct (bool_decide _); simpl; [by apply Forall_nil|].
  apply (forOf_invariant
           (λ st, Forall settledContext (nodeExecutions (rs_execution st)))).
  - intros x st. apply runNode_settled.
  - by apply Forall_nil.
Qed.

(** C10: every context in the [nodeExecutions] of a returned execution has
    status [completed] or [failed] and has both its start and its end time
    set. *)
Theorem returned_contexts_are_settled (workflow : Workflow)
    (payload : option NodeData) (nodeContext : NodeExecutionContext) :
  nodeContext ∈ nodeExecutions (executeWorkflow engine env workflow payload) →
  (ctx_status nodeContext = completed ∨ ctx_status nodeContext = failed)
  ∧ is_Some (ctx_startTime nodeContext)
  ∧ is_Some (ctx_endTime nodeContext).
Proof.
  intros Hin.
  pose proof (executeWorkflow_all_settled workflow payload) as Hall.
  rewrite Forall_forall in Hall. by apply Hall.
Qed.

(** C6: for a workflow without trigger nodes the run returns an execution
    with status [failed], the error set, and no node context: no node is
    attempted. *)
Theorem no_trigger_run_is_rejected (workflow : Workflow) (payload : option NodeData) :
  (∀ node, node ∈ nodes workflow → node_type node ≠ trigger) →
  let execution := executeWorkflow engine env workflow payload in
  exec_status execution = failed
  ∧ exec_error execution = Some "No trigger nodes found in workflow"
  ∧ nodeExecutions execution = [].
Proof.
  intros Hnone.
  assert (triggerNodes workflow = []) as Hempty.
  { unfold triggerNodes.
    induction (nodes workflow) as [|node l IH]; [done|].
    rewrite filter_cons_False; [|apply Hnone, list_elem_of_here].
    apply IH. intros node' Hin. by apply Hnone, list_elem_of_further. }
  unfold executeWorkflow, executeWorkflow_run, tryBlock. simpl.
  rewrite Hempty. simpl. done.
Qed.

Lemma findBy_key {A : Type} (key : A → string) (k : string) (l : list A) (x : A) :
  findBy key k l = Some x → key x = k.
Proof.
  unfold findBy. intros [_ Hx]%find_some. by apply bool_decide_eq_true_1 in Hx.
Qed.

(** Under [continue] and [retry] the loop appends a context for every id of
    the order that it attempts, whether the processor resolved or not. *)
Lemma forOf_runNode_continue (l : list string) :
  ∀ st,
    errorHandling (settings (rs_workflow st)) ≠ stop →
    ctx_nodeId <$> nodeExecutions (rs_execution (forOf (runNode engine env) l st))
    = (ctx_nodeId <$> nodeExecutions (rs_execution st))
      ++ filter (λ nodeId, attempted (rs_workflow st) nodeId = true) l.
Proof.
  induction l as [|nodeId l IH]; intros st Hmode; simpl.
  { by rewrite app_nil_r. }
  rewrite filter_cons. unfold runNode.
  destruct (findBy node_id nodeId (nodes (rs_workflow st))) as [node|] eqn:Hfind.
  - apply findBy_key in Hfind as Hid.
    assert (attempted (rs_workflow st) nodeId = node_enabled node) as Hatt
      by (unfold attempted; by rewrite Hfind).
    destruct (node_enabled node); simpl.
    + rewrite decide_True by done.
      match goal with
      | |- context [match ?settled with Resolved _ _ => _ | Rejected _ _ => _ end] =>
          destruct settled as [lines output|lines message]
      end.
      * rewrite IH by done. simpl. rewrite fmap_app. simpl.
        by rewrite Hid, <- app_assoc.
      * rewrite bool_decide_eq_false_2 by done.
        rewrite IH by done. simpl. rewrite fmap_app. simpl.
        by rewrite Hid, <- app_assoc.
    + rewrite decide_False by (by rewrite Hatt). by apply IH.
  - assert (attempted (rs_workflow st) nodeId = false) as Hatt
      by (unfold attempted; by rewrite Hfind).
    rewrite decide_False by (by rewrite Hatt). by apply IH.
Qed.

Lemma continue_appends_every_attempt (workflow : Workflow) (payload : option NodeData) :
  errorHandling (settings workflow) ≠ stop →
  triggerNodes workflow ≠ [] →
  ctx_nodeId <$> nodeExecutions (executeWorkflow engine env workflow payload)
  = filter (λ nodeId, attempted workflow nodeId = true) (getExecutionOrder workflow).
Proof.
  intros Hmode Htrig.
  unfold executeWorkflow, executeWorkflow_run, tryBlock. simpl.
  rewrite bool_decide_eq_false_2 by (by intros ?%nil_length_inv). simpl.
  by rewrite forOf_runNode_continue.
Qed.

End RunLoop.

Lemma returned_contexts_are_settled_witness :
  let nodeContext :=
    {| ctx_nodeId := "t"; ctx_workflowId := "wf";
       ctx_executionId := env_executionId exampleEnv;
       inputData := ∅; outputData := {[ "out" := VNumber 7 ]};
       ctx_status := completed;
       ctx_startTime := Some (env_now exampleEnv 1);
       ctx_endTime := Some (env_now exampleEnv 2);
       ctx_error := None; logs := [] |} in
  (ctx_status nodeContext = completed ∨ ctx_status nodeContext = failed)
  ∧ is_Some (ctx_startTime nodeContext)
  ∧ is_Some (ctx_endTime nodeContext).
Proof.
  apply (returned_contexts_are_settled failingAEngine exampleEnv
           (chainWorkflow stop) None).
  vm_compute. apply list_elem_of_here.
Defined.

Lemma no_trigger_run_is_rejected_witness :
  let execution := executeWorkflow failingAEngine exampleEnv noTriggerWorkflow None in
  exec_status execution = failed
  ∧ exec_error execution = Some "No trigger nodes found in workflow"
  ∧ nodeExecutions execution = [].
Proof.
  apply (no_trigger_run_is_rejected failingAEngine exampleEnv noTriggerWorkflow None).
  intros node Hin. simpl in Hin.
  apply elem_of_cons in Hin as [->|Hin]; [discriminate|].
  apply elem_of_cons in Hin as [->|Hin]; [discriminate|].
  by apply elem_of_nil in Hin.
Defined.

(** ** Runs of the example workflows *)

(** The scheduler walks from a trigger to the sources of the connections
    that target it, so in [Trigger → A → B] it schedules the trigger alone. *)
Lemma getExecutionOrder_chain (mode : ErrorHandling) :
  getExecutionOrder (chainWorkflow mode) = ["t"].
Proof. by destruct mode; vm_compute. Qed.

(** C1, on the code: in [Trigger → A → B] under [stop], with a processor for
    [A] that always raises, the run returns one context, the trigger's, and
    the status [completed] without an error: [A] is never attempted. *)
Theorem stop_run_of_chain (env : Env) :
  let execution := executeWorkflow failingAEngine env (chainWorkflow stop) None in
  (λ c, (ctx_nodeId c, ctx_status c)) <$> nodeExecutions execution
    = [("t", completed)]
  ∧ exec_status execution = completed
  ∧ exec_error execution = None.
Proof. by vm_compute. Qed.

(** C2, on the code: under [stop], the context of a node whose processor
    raised is left out of [nodeExecutions]: a run of the trigger alone, with
    a processor that raises, returns no context although the error of the
    execution carries the message of that processor. *)
Theorem stop_drops_failed_context (env : Env) :
  let execution :=
    executeWorkflow failingTriggerEngine env (triggerOnlyWorkflow stop) None in
  nodeExecutions execution = []
  ∧ exec_status execution = failed
  ∧ exec_error execution = Some "Node Trigger failed: boom".
Proof. by vm_compute. Qed.

(** The same run under [continue] appends the failed context. *)
Lemma continue_keeps_failed_context (env : Env) :
  let execution :=
    executeWorkflow failingTriggerEngine env (triggerOnlyWorkflow continue) None in
  (λ c, (ctx_nodeId c, ctx_status c, ctx_error c)) <$> nodeExecutions execution
    = [("t", failed, Some "boom")]
  ∧ exec_status execution = completed.
Proof. by vm_compute. Qed.

(** ** The scheduler returns *)

Lemma forEach_mono {A S : Type} (f g : A → S → option S) (l : list A) (s s' : S) :
  (∀ x t t', f x t = Some t' → g x t = Some t') →
  forEach f l s = Some s' → forEach g l s = Some s'.
Proof.
  intros Hfg. revert s.
  induction l as [|x l IH]; intros s; simpl; [done|].
  destruct (f x s) as [t|] eqn:Hf; [|done].
  rewrite (Hfg _ _ _ Hf). apply IH.
Qed.

Lemma filter_length_mono (P Q : string → Prop)
    `{!∀ x, Decision (P x)} `{!∀ x, Decision (Q x)} (l : list string) :
  (∀ x, P x → Q x) → length (filter P l) ≤ length (filter Q l).
Proof.
  intros HPQ. induction l as [|x l IH]; [done|].
  rewrite !filter_cons.
  destruct (decide (P x)) as [HP|HP], (decide (Q x)) as [HQ|HQ]; simpl; try lia.
  by destruct HQ; apply HPQ.
Qed.

Lemma filter_length_lt (P Q : string → Prop)
    `{!∀ x, Decision (P x)} `{!∀ x, Decision (Q x)} (l : list string) (y : string) :
  (∀ x, P x → Q x) → y ∈ l → Q y → ¬ P y →
  length (filter P l) < length (filter Q l).
Proof.
  intros HPQ Hy HQy HPy. induction l as [|x l IH]; [by apply elem_of_nil in Hy|].
  rewrite !filter_cons.
  pose proof (filter_length_mono P Q l HPQ) as Hle.
  apply elem_of_cons in Hy as [->|Hy].
  - destruct (decide (P x)); [done|]. destruct (decide (Q x)); [|done].
    simpl. lia.
  - specialize (IH Hy).
    destruct (decide (P x)) as [HP|HP], (decide (Q x)) as [HQ|HQ]; simpl; try lia.
    by destruct HQ; apply HPQ.
Qed.

Lemma unmarked_mono (ids : list string) (m m' : gset string) :
  m ⊆ m' → unmarked ids m' ≤ unmarked ids m.
Proof. intros Hsub. apply filter_length_mono. set_solver. Qed.

Lemma unmarked_lt (ids : list string) (m : gset string) (x : string) :
  x ∈ ids → x ∉ m → unmarked ids ({[x]} ∪ m) < unmarked ids m.
Proof.
  intros Hx Hm. apply (filter_length_lt _ _ _ x); [set_solver|done|done|set_solver].
Qed.

Lemma unmarked_length (ids : list string) (m : gset string) :
  unmarked ids m ≤ length ids.
Proof. apply length_filter. Qed.

Section Scheduler.
Context (workflow : Workflow).

Lemma extends_refl st : extends st st.
Proof.
  exists []. rewrite app_nil_r. split_and!; [done|set_solver|constructor|set_solver].
Qed.

Lemma extends_trans st1 st2 st3 : extends st1 st2 → extends st2 st3 → extends st1 st3.
Proof.
  intros (new1 & Ho1 & Hv1 & Hn1 & Hd1) (new2 & Ho2 & Hv2 & Hn2 & Hd2).
  exists (new1 ++ new2). split_and!.
  - by rewrite Ho2, Ho1, app_assoc.
  - rewrite Hv2, Hv1, list_to_set_app_L. set_solver.
  - apply NoDup_app. split_and!; [done| |done].
    intros x Hx1 Hx2. apply (Hd2 x Hx2). rewrite Hv1. set_solver.
  - intros x [Hx|Hx]%elem_of_app; [by apply Hd1|].
    intros Hv. apply (Hd2 x Hx). rewrite Hv1. set_solver.
Qed.

Lemma extends_visited st st' : extends st st' → visited st ⊆ visited st'.
Proof. intros (new & _ & -> & _). set_solver. Qed.

Lemma extends_order st st' x : extends st st' → x ∈ order st → x ∈ order st'.
Proof. intros (new & -> & _) Hx. set_solver. Qed.

(** What a call of [visit] does to the state, when it returns. *)
Lemma visit_extends (fuel : nat) :
  ∀ nodeId st st',
    visit fuel workflow nodeId st = Some st' →
    extends st st' ∧ nodeId ∈ visited st'.
Proof.
  induction fuel as [|fuel IH]; intros nodeId st st'; simpl; [done|].
  destruct (decide (nodeId ∈ visited st)) as [Hin|Hnotin].
  { intros [= <-]. split; [apply extends_refl|done]. }
  assert (∀ l s s',
             forEach (visit fuel workflow) l s = Some s' → extends s s') as Hloop.
  { induction l as [|d l IHl]; intros s s'; simpl.
    - intros [= <-]. apply extends_refl.
    - destruct (visit fuel workflow d s) as [t|] eqn:Hd; [|done].
      intros Hl. eapply extends_trans; [by eapply IH|by apply IHl]. }
  destruct (forEach _ _ _) as [st2|] eqn:Hdeps; [|done].
  intros [= <-]. apply Hloop in Hdeps as (new & Ho & Hv & Hn & Hd). simpl in *.
  split; [|rewrite Hv; set_solver].
  exists (new ++ [nodeId]). simpl. split_and!.
  - by rewrite Ho, app_assoc.
  - rewrite Hv, list_to_set_app_L. set_solver.
  - apply NoDup_app. split_and!; [done| |apply NoDup_singleton].
    intros x Hx ->%list_elem_of_singleton. apply (Hd nodeId Hx). set_solver.
  - intros x [Hx|Hx]%elem_of_app.
    + specialize (Hd x Hx). set_solver.
    + by apply list_elem_of_singleton in Hx as ->.
Qed.

Lemma forEach_visit_extends (fuel : nat) (l : list string) :
  ∀ st st', forEach (visit fuel workflow) l st = Some st' → extends st st'.
Proof.
  induction l as [|d l IHl]; intros st st'; simpl.
  - intros [= <-]. apply extends_refl.
  - destruct (visit fuel workflow d st) as [t|] eqn:Hd; [|done].
    intros Hl. eapply extends_trans; [by eapply visit_extends|by apply IHl].
Qed.

(** More fuel does not change what [visit] returns. *)
Lemma visit_fuel_mono (fuel fuel' : nat) :
  fuel ≤ fuel' →
  ∀ nodeId st st',
    visit fuel workflow nodeId st = Some st' →
    visit fuel' workflow nodeId st = Some st'.
Proof.
  revert fuel'. induction fuel as [|fuel IH]; intros fuel' Hle nodeId st st'; [done|].
  destruct fuel' as [|fuel']; [lia|]. simpl.
  destruct (decide (nodeId ∈ visited st)); [done|].
  destruct (forEach (visit fuel workflow) _ _) as [st2|] eqn:Hdeps; [|done].
  intros [= <-].
  rewrite (forEach_mono _ (visit fuel' workflow) _ _ _ (IH fuel' ltac:(lia)) Hdeps).
  done.
Qed.

Lemma unmarked_bound (m : gset string) :
  unmarked (sources workflow) m ≤ length (connections workflow).
Proof. etrans; [apply unmarked_length|]. unfold sources. by rewrite length_fmap. Qed.

Lemma dependenciesOf_sources (nodeId d : string) :
  d ∈ dependenciesOf workflow nodeId → d ∈ sources workflow.
Proof.
  unfold dependenciesOf, incomingConnections, sources.
  intros (conn & -> & Hconn)%list_elem_of_fmap.
  apply list_elem_of_filter in Hconn as [_ Hconn].
  by apply list_elem_of_fmap_2.
Qed.

(** With fuel beyond the number of unmarked sources, a loop of calls of
    [visit] on sources returns if every such call does. *)
Lemma forEach_visit_returns (fuel : nat) (l : list string) :
  (∀ d st, d ∈ sources workflow → unmarked (sources workflow) (visited st) < fuel →
           is_Some (visit fuel workflow d st)) →
  ∀ st, (∀ d, d ∈ l → d ∈ sources workflow) → unmarked (sources workflow) (visited st) < fuel →
        is_Some (forEach (visit fuel workflow) l st).
Proof.
  intros Hvisit. induction l as [|d l IHl]; intros st Hl Hfuel; simpl; [by eexists|].
  destruct (Hvisit d st) as [t Ht]; [set_solver|done|]. rewrite Ht.
  apply IHl; [set_solver|].
  apply visit_extends in Ht as [Hext _]. apply extends_visited in Hext.
  pose proof (unmarked_mono (sources workflow) _ _ Hext). lia.
Qed.

Lemma visit_source_returns (fuel : nat) :
  ∀ nodeId st,
    nodeId ∈ sources workflow → unmarked (sources workflow) (visited st) < fuel →
    is_Some (visit fuel workflow nodeId st).
Proof.
  induction fuel as [|fuel IH]; intros nodeId st Hsrc Hfuel; [lia|]. simpl.
  destruct (decide (nodeId ∈ visited st)) as [Hin|Hnotin]; [by eexists|].
  pose proof (unmarked_lt _ _ _ Hsrc Hnotin) as Hlt.
  destruct (forEach_visit_returns fuel (dependenciesOf workflow nodeId) IH
              {| visited := {[nodeId]} ∪ visited st; order := order st |})
    as [st2 Hst2]; simpl.
  - intros d. apply dependenciesOf_sources.
  - lia.
  - rewrite Hst2. by eexists.
Qed.

Lemma visit_returns (fuel : nat) (nodeId : string) (st : VisitState) :
  S (unmarked (sources workflow) (visited st)) < fuel →
  is_Some (visit fuel workflow nodeId st).
Proof.
  intros Hfuel. destruct fuel as [|fuel]; [lia|]. simpl.
  destruct (decide (nodeId ∈ visited st)) as [Hin|Hnotin]; [by eexists|].
  destruct (forEach_visit_returns fuel (dependenciesOf workflow nodeId)
              (visit_source_returns fuel)
              {| visited := {[nodeId]} ∪ visited st; order := order st |})
    as [st2 Hst2]; simpl.
  - intros d. apply dependenciesOf_sources.
  - assert (unmarked (sources workflow) ({[nodeId]} ∪ visited st) ≤ unmarked (sources workflow) (visited st))
      by (apply unmarked_mono; set_solver).
    lia.
  - rewrite Hst2. by eexists.
Qed.

Lemma forEach_visit_top_returns (fuel : nat) (l : list string) :
  visitDepth workflow ≤ fuel →
  ∀ st, is_Some (forEach (visit fuel workflow) l st).
Proof.
  intros Hfuel. induction l as [|x l IHl]; intros st; simpl; [by eexists|].
  destruct (visit_returns fuel x st) as [t Ht].
  { unfold visitDepth in Hfuel.
    pose proof (unmarked_bound (visited st)). lia. }
  rewrite Ht. apply IHl.
Qed.

Lemma getExecutionOrder_fuel_returns :
  getExecutionOrder_fuel (visitDepth workflow) workflow
  = Some (getExecutionOrder workflow).
Proof.
  unfold getExecutionOrder, getExecutionOrder_fuel.
  destruct (forEach_visit_top_returns (visitDepth workflow)
              (node_id <$> triggerNodes workflow) (le_n _)
              {| visited := ∅; order := [] |}) as [st Hst].
  by rewrite Hst.
Qed.

Lemma getExecutionOrder_fuel_mono (fuel : nat) :
  visitDepth workflow ≤ fuel →
  getExecutionOrder_fuel fuel workflow = Some (getExecutionOrder workflow).
Proof.
  intros Hle. pose proof getExecutionOrder_fuel_returns as Hret.
  unfold getExecutionOrder_fuel in *.
  destruct (forEach (visit (visitDepth workflow) workflow) _ _) as [st|] eqn:Hst;
    [|done].
  by rewrite (forEach_mono _ (visit fuel workflow) _ _ _
                (visit_fuel_mono _ _ Hle) Hst).
Qed.

(** The final state of the traversal. *)
Lemma getExecutionOrder_state :
  ∃ st, forEach (visit (visitDepth workflow) workflow)
                (node_id <$> triggerNodes workflow)
                {| visited := ∅; order := [] |} = Some st
        ∧ getExecutionOrder workflow = order st.
Proof.
  destruct (forEach_visit_top_returns (visitDepth workflow)
              (node_id <$> triggerNodes workflow) (le_n _)
              {| visited := ∅; order := [] |}) as [st Hst].
  exists st. split; [done|].
  unfold getExecutionOrder, getExecutionOrder_fuel. by rewrite Hst.
Qed.

Lemma getExecutionOrder_NoDup : NoDup (getExecutionOrder workflow).
Proof.
  destruct getExecutionOrder_state as (st & Hst & ->).
  apply forEach_visit_extends in Hst as (new & Ho & _ & Hn & _).
  by rewrite Ho.
Qed.
End Scheduler.

Lemma edge_dependenciesOf (workflow : Workflow) (a b : string) :
  edge workflow a b ↔ a ∈ dependenciesOf workflow b.
Proof.
  unfold edge, dependenciesOf, incomingConnections. rewrite list_elem_of_fmap.
  split.
  - intros (conn & Hin & <- & <-). exists conn. split; [done|].
    by apply list_elem_of_filter.
  - intros (conn & -> & [Htgt Hin]%list_elem_of_filter). by exists conn.
Qed.

(** ** What the scheduler orders *)

Section Scheduled.
Context (workflow : Workflow).

(** Every id that a call of [visit] marks is upstream of a trigger when the
    id it was called on is. *)
Lemma visit_upstream (fuel : nat) :
  ∀ nodeId st st',
    visit fuel workflow nodeId st = Some st' →
    reachesTrigger workflow nodeId →
    (∀ x, x ∈ visited st → reachesTrigger workflow x) →
    ∀ x, x ∈ visited st' → reachesTrigger workflow x.
Proof.
  induction fuel as [|fuel IH]; intros nodeId st st'; simpl; [done|].
  destruct (decide (nodeId ∈ visited st)); [by intros [= <-]|].
  assert (∀ l s s',
             forEach (visit fuel workflow) l s = Some s' →
             (∀ d, d ∈ l → reachesTrigger workflow d) →
             (∀ x, x ∈ visited s → reachesTrigger workflow x) →
             ∀ x, x ∈ visited s' → reachesTrigger workflow x) as Hloop.
  { induction l as [|d l IHl]; intros s s'; simpl; [by intros [= <-]|].
    destruct (visit fuel workflow d s) as [t|] eqn:Hd; [|done].
    intros Hl Hup Hs. eapply IHl; [done| |].
    - intros d' Hd'. by apply Hup, list_elem_of_further.
    - eapply IH; [done| |done]. apply Hup, list_elem_of_here. }
  destruct (forEach _ _ _) as [st2|] eqn:Hdeps; [|done].
  intros [= <-] (t & Ht & Hreach) Hst. simpl.
  eapply Hloop; [done| |].
  - intros d Hd%edge_dependenciesOf. exists t. split; [done|]. by eapply rtc_l.
  - simpl. intros x [Hx|Hx]%elem_of_union; [|by apply Hst].
    apply elem_of_singleton in Hx as ->. by exists t.
Qed.

(** When a call of [visit] returns, the dependencies of every id of the
    order are marked. *)
Lemma visit_closed (fuel : nat) :
  ∀ nodeId st st',
    visit fuel workflow nodeId st = Some st' →
    (∀ a b, edge workflow a b → b ∈ order st → a ∈ visited st) →
    ∀ a b, edge workflow a b → b ∈ order st' → a ∈ visited st'.
Proof.
  induction fuel as [|fuel IH]; intros nodeId st st'; simpl; [done|].
  destruct (decide (nodeId ∈ visited st)); [by intros [= <-]|].
  assert (∀ l s s',
             forEach (visit fuel workflow) l s = Some s' →
             (∀ a b, edge workflow a b → b ∈ order s → a ∈ visited s) →
             (∀ a b, edge workflow a b → b ∈ order s' → a ∈ visited s')
             ∧ ∀ d, d ∈ l → d ∈ visited s') as Hloop.
  { induction l as [|d l IHl]; intros s s'; simpl.
    - intros [= <-] Hs. split; [done|]. intros d Hd. by apply elem_of_nil in Hd.
    - destruct (visit fuel workflow d s) as [t|] eqn:Hd; [|done].
      intros Hl Hs.
      destruct (IHl t s' Hl (IH _ _ _ Hd Hs)) as [Hs' Hall].
      split; [done|].
      intros d' [->|Hd']%elem_of_cons; [|by apply Hall].
      apply (extends_visited t s'); [by eapply forEach_visit_extends|].
      by eapply visit_extends. }
  destruct (forEach _ _ _) as [st2|] eqn:Hdeps; [|done].
  intros [= <-] Hst a b Hab. simpl.
  destruct (Hloop _ _ _ Hdeps) as [Hst2 Hall].
  { simpl. intros a' b' Hab' Hb'. apply elem_of_union. right. by eapply Hst. }
  intros [Hb|Hb]%elem_of_app; [by eapply Hst2|].
  apply list_elem_of_singleton in Hb as ->. by apply Hall, edge_dependenciesOf.
Qed.

(** The order holds the ids that are upstream of a trigger node, and no
    other: an id that is only downstream of the triggers is not scheduled. *)
Lemma scheduled_iff_reachesTrigger (x : string) :
  x ∈ getExecutionOrder workflow ↔ reachesTrigger workflow x.
Proof.
  destruct (getExecutionOrder_state workflow) as (st & Hst & ->).
  pose proof (forEach_visit_extends workflow _ _ _ _ Hst)
    as (new & Ho & Hv & _ & _); simpl in *.
  assert (∀ y, y ∈ visited st ↔ y ∈ order st) as Hsame.
  { intros y. rewrite Hv, Ho. set_solver. }
  assert (∀ l s s',
             forEach (visit (visitDepth workflow) workflow) l s = Some s' →
             (∀ d, d ∈ l → reachesTrigger workflow d) →
             (∀ y, y ∈ visited s → reachesTrigger workflow y) →
             (∀ a b, edge workflow a b → b ∈ order s → a ∈ visited s) →
             (∀ y, y ∈ visited s' → reachesTrigger workflow y)
             ∧ (∀ a b, edge workflow a b → b ∈ order s' → a ∈ visited s')
             ∧ ∀ d, d ∈ l → d ∈ visited s') as Hloop.
  { induction l as [|d l IHl]; intros s s'; cbn [forEach].
    - intros [= <-] _ Hs Hc. split_and!; [done..|].
      intros d Hd. by apply elem_of_nil in Hd.
    - destruct (visit (visitDepth workflow) workflow d s) as [t|] eqn:Hd; [|done].
      intros Hl Hup Hs Hc.
      destruct (IHl t s' Hl) as (Hs' & Hc' & Hall).
      + intros d' Hd'. by apply Hup, list_elem_of_further.
      + eapply visit_upstream; [done| |done]. apply Hup, list_elem_of_here.
      + by eapply visit_closed.
      + split_and!; [done..|].
        intros d' [->|Hd']%elem_of_cons; [|by apply Hall].
        apply (extends_visited t s'); [by eapply forEach_visit_extends|].
        by eapply visit_extends. }
  destruct (Hloop _ _ _ Hst) as (Hup & Hclosed & Htrig).
  { intros d (t & -> & Ht)%list_elem_of_fmap. exists t. by split. }
  { simpl. set_solver. }
  { simpl. intros a b _ Hb. by apply elem_of_nil in Hb. }
  split.
  - intros Hx. by apply Hup, Hsame.
  - intros (t & Ht & Hreach).
    assert (node_id t ∈ order st) as Hin
      by (apply Hsame, Htrig; by apply list_elem_of_fmap_2).
    clear Ht. induction Hreach as [|x y z Hxy _ IH]; [done|].
    apply Hsame. eapply Hclosed; [done|]. by apply IH.
Qed.
End Scheduled.

(** C7: [getExecutionOrder] returns an order for every workflow, cyclic or
    not, with dangling connections or not: the nested calls of [visit] are
    never deeper than [visitDepth], more fuel gives the same order, and no
    id occurs in the order twice. *)
Theorem getExecutionOrder_terminates (workflow : Workflow) :
  ∃ result,
    (∀ fuel, visitDepth workflow ≤ fuel →
             getExecutionOrder_fuel fuel workflow = Some result)
    ∧ getExecutionOrder workflow = result
    ∧ NoDup result.
Proof.
  exists (getExecutionOrder workflow). split_and!.
  - apply getExecutionOrder_fuel_mono.
  - done.
  - apply getExecutionOrder_NoDup.
Qed.

(** On the cycle [Trigger → A → Trigger] the scheduler returns, with [A]
    ahead of the trigger that it depends on and is a dependency of. *)
Lemma getExecutionOrder_cyclic : getExecutionOrder cyclicWorkflow = ["a"; "t"].
Proof. by vm_compute. Qed.

(** ** The order on acyclic workflows *)

Lemma before_app (a b : string) (l l' : list string) :
  before a b l → before a b (l ++ l').
Proof.
  intros (l1 & l2 & l3 & ->). exists l1, l2, (l3 ++ l').
  by rewrite <- !app_assoc, <- !app_comm_cons, <- app_assoc.
Qed.

Lemma before_snoc (a b : string) (l : list string) :
  a ∈ l → before a b (l ++ [b]).
Proof.
  intros (l1 & l2 & ->)%list_elem_of_split. exists l1, l2, [].
  by rewrite <- app_assoc.
Qed.

Lemma extends_gray (st st' : VisitState) (x : string) :
  extends st st' → (∀ y, y ∈ order st → y ∈ visited st) →
  gray st' x ↔ gray st x.
Proof.
  intros (new & Ho & Hv & _ & Hd) Hsub. unfold gray. rewrite Ho, Hv.
  rewrite elem_of_union, elem_of_list_to_set, elem_of_app.
  split.
  - intros [[Hx|Hx] Hnot]; [destruct Hnot; by right|]. split; [done|]. tauto.
  - intros [Hx Hnot]. split; [by right|].
    intros [Ho'|Hnew]; [done|]. by apply (Hd x).
Qed.

Lemma extends_order_visited (st st' : VisitState) :
  extends st st' → (∀ y, y ∈ order st → y ∈ visited st) →
  ∀ y, y ∈ order st' → y ∈ visited st'.
Proof.
  intros (new & Ho & Hv & _ & _) Hsub y. rewrite Ho, Hv.
  rewrite elem_of_union, elem_of_list_to_set, elem_of_app.
  intros [Hy|Hy]; [right; by apply Hsub|by left].
Qed.

Section Soundness.
Context (workflow : Workflow).
Hypothesis Hacyclic : acyclic workflow.

Lemma forEach_visit_sound (fuel : nat) (l : list string) :
  visitContract workflow fuel →
  ∀ st st',
    forEach (visit fuel workflow) l st = Some st' →
    ordered workflow st →
    (∀ d g, d ∈ l → gray st g → tc (edge workflow) d g) →
    ordered workflow st' ∧ ∀ d, d ∈ l → d ∈ order st'.
Proof.
  intros Hvisit. induction l as [|d l IHl]; intros st st'; simpl.
  - intros [= <-] Hord _. split; [done|]. intros d Hd. by apply elem_of_nil in Hd.
  - destruct (visit fuel workflow d st) as [t|] eqn:Hd; [|done].
    intros Hl Hord Hgray.
    destruct (Hvisit d st t Hd Hord) as [Hordt Hdt].
    { intros g Hg. apply Hgray; [apply list_elem_of_here|done]. }
    pose proof (visit_extends workflow fuel d st t Hd) as [Hext _].
    destruct (IHl t st' Hl Hordt) as [Hord' Hl'].
    { intros d' g Hd' Hg. apply Hgray; [by apply list_elem_of_further|].
      by apply (extends_gray st t g Hext (proj1 Hord)). }
    split; [done|].
    intros d' [->|Hd']%elem_of_cons; [|by apply Hl'].
    eapply extends_order; [|done]. by eapply forEach_visit_extends.
Qed.

Lemma visit_sound (fuel : nat) : visitContract workflow fuel.
Proof.
  induction fuel as [|fuel IH]; intros nodeId st st'; simpl; [done|].
  destruct (decide (nodeId ∈ visited st)) as [Hin|Hnotin].
  { intros [= <-] Hord Hgray. split; [done|].
    destruct (decide (nodeId ∈ order st)) as [|Hnot]; [done|].
    destruct (Hacyclic nodeId). by apply Hgray. }
  destruct (forEach _ _ _) as [st2|] eqn:Hdeps; [|done].
  intros [= <-] [Hsub Hord] Hgray. simpl.
  pose proof (forEach_visit_extends workflow _ _ _ _ Hdeps) as Hext.
  assert (nodeId ∉ order st2) as Hfresh.
  { intros Hn.
    assert (gray {| visited := {[nodeId]} ∪ visited st; order := order st |} nodeId)
      as Hg by (split; simpl; [set_solver|by intros ?%Hsub]).
    apply (extends_gray _ st2 nodeId Hext) in Hg as [_ Hg]; [done|].
    simpl. intros y Hy%Hsub. set_solver. }
  destruct (forEach_visit_sound fuel _ IH _ _ Hdeps) as [[Hsub2 Hord2] Hall].
  { split; simpl; [intros y Hy%Hsub; set_solver|done]. }
  { intros d g Hd%edge_dependenciesOf [Hg Hnot]; simpl in *.
    apply elem_of_union in Hg as [Hg|Hg].
    - apply elem_of_singleton in Hg as ->. by apply tc_once.
    - eapply tc_l; [done|]. by apply Hgray. }
  split; [|set_solver].
  split; simpl.
  - intros y [Hy|Hy]%elem_of_app; [by apply Hsub2|].
    apply list_elem_of_singleton in Hy as ->.
    apply (extends_visited _ _ Hext). simpl. set_solver.
  - intros a b Hedge [Hb|Hb]%elem_of_app.
    + by apply before_app, Hord2.
    + apply list_elem_of_singleton in Hb as ->.
      by apply before_snoc, Hall, edge_dependenciesOf.
Qed.

(** What the scheduler does order, it orders soundly: in a workflow without
    a connection cycle, for every connection whose target is in the
    computed order, the source is in the order too, ahead of the target. *)
Theorem dependencies_run_first (conn : NodeConnection) :
  conn ∈ connections workflow →
  conn_targetNodeId conn ∈ getExecutionOrder workflow →
  before (conn_sourceNodeId conn) (conn_targetNodeId conn)
         (getExecutionOrder workflow).
Proof.
  intros Hconn Htgt.
  destruct (getExecutionOrder_state workflow) as (st & Hst & Horder).
  rewrite Horder in *.
  destruct (forEach_visit_sound _ _ (visit_sound _) _ _ Hst) as [[_ Hord] _].
  - split; simpl; [intros x Hx; by apply elem_of_nil in Hx|].
    intros a b _ Hb. by apply elem_of_nil in Hb.
  - intros d g _ [Hg _]. simpl in Hg. set_solver.
  - apply Hord; [|done]. by exists conn.
Qed.
End Soundness.

(** A ranking of the ids that every connection increases rules cycles out. *)
Lemma ranked_acyclic (workflow : Workflow) (rank : string → nat) :
  Forall (λ conn, rank (conn_sourceNodeId conn) < rank (conn_targetNodeId conn))
         (connections workflow) →
  acyclic workflow.
Proof.
  intros Hrank.
  assert (∀ x y, tc (edge workflow) x y → rank x < rank y) as Htc.
  { intros x y Hxy. induction Hxy as [x y Hxy|x y z Hxy _ IH].
    - destruct Hxy as (conn & Hin & <- & <-).
      rewrite Forall_forall in Hrank. by apply Hrank.
    - destruct Hxy as (conn & Hin & <- & <-).
      rewrite Forall_forall in Hrank. specialize (Hrank conn Hin). simpl in *. lia. }
  intros x Hx. apply Htc in Hx. lia.
Qed.

Lemma dependencies_run_first_witness :
  before "a" "t" (getExecutionOrder upstreamWorkflow).
Proof.
  apply (dependencies_run_first upstreamWorkflow
           (ranked_acyclic upstreamWorkflow upstreamRank
              ltac:(repeat constructor))
           (mkConnection "c1" "a" "t" "out" "in")).
  - apply list_elem_of_here.
  - vm_compute. apply list_elem_of_further, list_elem_of_here.
Defined.

(** On a cycle no order is sound: in [Trigger → A → Trigger] both ids are
    reachable from the trigger, and the order is [A] and then the trigger,
    so the connection [Trigger → A] goes backward. *)
Lemma cycle_is_not_topologically_sound : ¬ topologicallySound cyclicWorkflow.
Proof.
  intros Hsound.
  assert (mkNode "t" trigger "Trigger" ∈ triggerNodes cyclicWorkflow) as Htrig.
  { apply list_elem_of_filter. split; [done|apply list_elem_of_here]. }
  destruct (Hsound (mkConnection "c1" "t" "a" "out" "in")) as (l1 & l2 & l3 & Heq).
  - apply list_elem_of_here.
  - eexists. split; [exact Htrig|]. apply rtc_refl.
  - eexists. split; [exact Htrig|]. apply rtc_once.
    eexists. split; [apply list_elem_of_here|done].
  - rewrite getExecutionOrder_cyclic in Heq. simpl in Heq.
    destruct l1 as [|x [|y l1]]; simplify_eq/=.
    + by destruct l2.
    + by destruct l1.
Qed.

(** C4, on the code: the order is not topologically sound on a workflow
    without a cycle.  [Trigger → A → B] has no connection cycle, and both
    ends of its connection [Trigger → A] are reachable from the trigger;
    but the scheduler walks from the trigger to the sources of the
    connections that target it, and returns the trigger alone: [A] is not
    in the order, after the trigger or anywhere. *)
Theorem chain_is_not_topologically_sound (mode : ErrorHandling) :
  acyclic (chainWorkflow mode)
  ∧ mkConnection "c1" "t" "a" "out" "in" ∈ connections (chainWorkflow mode)
  ∧ reachableFromTrigger (chainWorkflow mode) "t"
  ∧ reachableFromTrigger (chainWorkflow mode) "a"
  ∧ getExecutionOrder (chainWorkflow mode) = ["t"]
  ∧ ¬ before "t" "a" (getExecutionOrder (chainWorkflow mode))
  ∧ ¬ topologicallySound (chainWorkflow mode).
Proof.
  assert (mkNode "t" trigger "Trigger" ∈ triggerNodes (chainWorkflow mode))
    as Htrig.
  { apply list_elem_of_filter. split; [done|apply list_elem_of_here]. }
  assert (reachableFromTrigger (chainWorkflow mode) "t") as Ht.
  { eexists. split; [exact Htrig|]. apply rtc_refl. }
  assert (reachableFromTrigger (chainWorkflow mode) "a") as Ha.
  { eexists. split; [exact Htrig|]. apply rtc_once.
    eexists. split; [apply list_elem_of_here|done]. }
  assert (¬ before "t" "a" (getExecutionOrder (chainWorkflow mode))) as Hnot.
  { rewrite getExecutionOrder_chain. intros (l1 & l2 & l3 & Heq).
    destruct l1 as [|x [|y l1]]; simplify_eq/=. by destruct l2. }
  split_and!;
    [|apply list_elem_of_here|done|done|apply getExecutionOrder_chain|done|].
  - apply (ranked_acyclic _ chainRank). repeat constructor.
  - intros Hsound. apply Hnot.
    by apply (Hsound (mkConnection "c1" "t" "a" "out" "in"));
      [apply list_elem_of_here|..].
Qed.

(** ** The cycle check *)

Lemma forSome_mono {A S : Type} (f g : A → S → option (bool * S))
    (l : list A) (s : S) (r : bool * S) :
  (∀ x t r', f x t = Some r' → g x t = Some r') →
  forSome f l s = Some r → forSome g l s = Some r.
Proof.
  intros Hfg. revert s.
  induction l as [|x l IH]; intros s; simpl; [done|].
  destruct (f x s) as [[[] t]|] eqn:Hf; [| |done]; rewrite (Hfg _ _ _ Hf); [done|].
  apply IH.
Qed.

Lemma forSome_visited (f : string → CycleState → option (bool * CycleState))
    (l : list string) :
  (∀ x s b s', f x s = Some (b, s') → cs_visited s ⊆ cs_visited s') →
  ∀ s b s', forSome f l s = Some (b, s') → cs_visited s ⊆ cs_visited s'.
Proof.
  intros Hf. induction l as [|x l IH]; intros s b s'; simpl.
  - by intros [= <- <-].
  - destruct (f x s) as [[[] t]|] eqn:Hx; [| |done].
    + intros [= <- <-]. by eapply Hf.
    + intros Hl. etrans; [by eapply Hf|by eapply IH].
Qed.

Section CycleCheck.
Context (workflow : Workflow).

Lemma edge_successorsOf (a b : string) :
  edge workflow a b ↔ b ∈ successorsOf workflow a.
Proof.
  unfold edge, successorsOf, outgoingConnections. rewrite list_elem_of_fmap.
  split.
  - intros (conn & Hin & <- & <-). exists conn. split; [done|].
    by apply list_elem_of_filter.
  - intros (conn & -> & [Hsrc Hin]%list_elem_of_filter). by exists conn.
Qed.

Lemma successorsOf_targets (nodeId d : string) :
  d ∈ successorsOf workflow nodeId → d ∈ targets workflow.
Proof.
  unfold successorsOf, outgoingConnections, targets.
  intros (conn & -> & Hconn)%list_elem_of_fmap.
  apply list_elem_of_filter in Hconn as [_ Hconn].
  by apply list_elem_of_fmap_2.
Qed.

(** A call of [hasCycle] only adds to the marked ids. *)
Lemma hasCycle_visited (fuel : nat) :
  ∀ nodeId st b st',
    hasCycle fuel workflow nodeId st = Some (b, st') →
    cs_visited st ⊆ cs_visited st'.
Proof.
  induction fuel as [|fuel IH]; intros nodeId st b st'; simpl; [done|].
  destruct (decide (nodeId ∈ recursionStack st)); [by intros [= <- <-]|].
  destruct (decide (nodeId ∈ cs_visited st)); [by intros [= <- <-]|].
  destruct (forSome _ _ _) as [[[] st2]|] eqn:Hloop; [| |done].
  all: apply (forSome_visited _ _ IH) in Hloop.
  all: intros [= <- <-]; simpl in *; set_solver.
Qed.

Lemma forSome_hasCycle_visited (fuel : nat) (l : list string) :
  ∀ st b st',
    forSome (hasCycle fuel workflow) l st = Some (b, st') →
    cs_visited st ⊆ cs_visited st'.
Proof.
  apply forSome_visited, hasCycle_visited.
Qed.

(** More fuel does not change what [hasCycle] returns. *)
Lemma hasCycle_fuel_mono (fuel fuel' : nat) :
  fuel ≤ fuel' →
  ∀ nodeId st r,
    hasCycle fuel workflow nodeId st = Some r →
    hasCycle fuel' workflow nodeId st = Some r.
Proof.
  revert fuel'. induction fuel as [|fuel IH]; intros fuel' Hle nodeId st r; [done|].
  destruct fuel' as [|fuel']; [lia|]. simpl.
  destruct (decide (nodeId ∈ recursionStack st)); [done|].
  destruct (decide (nodeId ∈ cs_visited st)); [done|].
  destruct (forSome (hasCycle fuel workflow) _ _) as [r2|] eqn:Hloop; [|done].
  by rewrite (forSome_mono _ (hasCycle fuel' workflow) _ _ _
                (IH fuel' ltac:(lia)) Hloop).
Qed.

Lemma forSome_hasCycle_returns (fuel : nat) (l : list string) :
  (∀ d st, d ∈ targets workflow → unmarked (targets workflow) (cs_visited st) < fuel →
           is_Some (hasCycle fuel workflow d st)) →
  ∀ st, (∀ d, d ∈ l → d ∈ targets workflow) →
        unmarked (targets workflow) (cs_visited st) < fuel →
        is_Some (forSome (hasCycle fuel workflow) l st).
Proof.
  intros Hcall. induction l as [|d l IHl]; intros st Hl Hfuel; simpl; [by eexists|].
  destruct (Hcall d st) as [[[] t] Ht]; [set_solver|done| |]; rewrite Ht;
    [by eexists|].
  apply IHl; [set_solver|].
  apply hasCycle_visited in Ht.
  pose proof (unmarked_mono (targets workflow) _ _ Ht). lia.
Qed.

Lemma hasCycle_target_returns (fuel : nat) :
  ∀ nodeId st,
    nodeId ∈ targets workflow →
    unmarked (targets workflow) (cs_visited st) < fuel →
    is_Some (hasCycle fuel workflow nodeId st).
Proof.
  induction fuel as [|fuel IH]; intros nodeId st Htgt Hfuel; [lia|]. simpl.
  destruct (decide (nodeId ∈ recursionStack st)); [by eexists|].
  destruct (decide (nodeId ∈ cs_visited st)) as [Hin|Hnotin]; [by eexists|].
  pose proof (unmarked_lt _ _ _ Htgt Hnotin) as Hlt.
  destruct (forSome_hasCycle_returns fuel (successorsOf workflow nodeId) IH
              {| cs_visited := {[nodeId]} ∪ cs_visited st;
                 recursionStack := {[nodeId]} ∪ recursionStack st |})
    as [[[] st2] Hst2]; simpl.
  - intros d. apply successorsOf_targets.
  - lia.
  - rewrite Hst2. by eexists.
  - rewrite Hst2. by eexists.
Qed.

Lemma hasCycle_returns (fuel : nat) (nodeId : string) (st : CycleState) :
  S (unmarked (targets workflow) (cs_visited st)) < fuel →
  is_Some (hasCycle fuel workflow nodeId st).
Proof.
  intros Hfuel. destruct fuel as [|fuel]; [lia|]. simpl.
  destruct (decide (nodeId ∈ recursionStack st)); [by eexists|].
  destruct (decide (nodeId ∈ cs_visited st)) as [Hin|Hnotin]; [by eexists|].
  destruct (forSome_hasCycle_returns fuel (successorsOf workflow nodeId)
              (hasCycle_target_returns fuel)
              {| cs_visited := {[nodeId]} ∪ cs_visited st;
                 recursionStack := {[nodeId]} ∪ recursionStack st |})
    as [[[] st2] Hst2]; simpl.
  - intros d. apply successorsOf_targets.
  - assert (unmarked (targets workflow) ({[nodeId]} ∪ cs_visited st)
            ≤ unmarked (targets workflow) (cs_visited st))
      by (apply unmarked_mono; set_solver).
    lia.
  - rewrite Hst2. by eexists.
  - rewrite Hst2. by eexists.
Qed.

Lemma forSome_hasCycle_top_returns (fuel : nat) (l : list string) :
  visitDepth workflow ≤ fuel →
  ∀ st, is_Some (forSome (hasCycle fuel workflow) l st).
Proof.
  intros Hfuel. induction l as [|x l IHl]; intros st; simpl; [by eexists|].
  destruct (hasCycle_returns fuel x st) as [[[] t] Ht].
  { unfold visitDepth in Hfuel.
    pose proof (unmarked_length (targets workflow) (cs_visited st)) as Hlen.
    unfold targets in Hlen at 2. rewrite length_fmap in Hlen. lia. }
  - rewrite Ht. by eexists.
  - rewrite Ht. apply IHl.
Qed.

(** The cycle check returns an answer, and more fuel gives the same one. *)
Lemma hasCircularDependencies_fuel_mono (fuel : nat) :
  visitDepth workflow ≤ fuel →
  hasCircularDependencies_fuel fuel workflow
  = Some (hasCircularDependencies workflow).
Proof.
  intros Hle. unfold hasCircularDependencies, hasCircularDependencies_fuel.
  destruct (forSome_hasCycle_top_returns (visitDepth workflow)
              (node_id <$> nodes workflow) (le_n _)
              {| cs_visited := ∅; recursionStack := ∅ |}) as [r Hr].
  rewrite Hr.
  by rewrite (forSome_mono _ (hasCycle fuel workflow) _ _ _
                (hasCycle_fuel_mono _ _ Hle) Hr).
Qed.
End CycleCheck.

(** ** The cycle check finds every cycle it can reach *)

Section CycleDetection.
Context (workflow : Workflow).

Lemma black_rtc (st : CycleState) (x y : string) :
  cycleFree workflow st → black st x → rtc (edge workflow) x y → black st y.
Proof.
  intros (_ & Hclosed & _) Hx Hxy.
  induction Hxy as [|x y z Hxy _ IH]; [done|].
  apply IH. by eapply Hclosed.
Qed.

Lemma forSome_hasCycle_false (fuel : nat) (l : list string) :
  hasCycleContract workflow fuel →
  ∀ st st',
    forSome (hasCycle fuel workflow) l st = Some (false, st') →
    cycleFree workflow st →
    cycleFree workflow st'
    ∧ recursionStack st' = recursionStack st
    ∧ cs_visited st ⊆ cs_visited st'
    ∧ ∀ d, d ∈ l → black st' d.
Proof.
  intros Hcall. induction l as [|d l IHl]; intros st st'; simpl.
  - intros [= <-] Hfree. split_and!; [done..|].
    intros d Hd. by apply elem_of_nil in Hd.
  - destruct (hasCycle fuel workflow d st) as [[[] t]|] eqn:Hd; [done| |done].
    intros Hl Hfree.
    destruct (Hcall d st t Hd Hfree) as (Hfreet & Hstack & Hsub & Hblack).
    destruct (IHl t st' Hl Hfreet) as (Hfree' & Hstack' & Hsub' & Hall).
    split_and!; [done|congruence|set_solver|].
    intros d' [->|Hd']%elem_of_cons; [|by apply Hall].
    destruct Hblack as [Hv Hs]. split; [set_solver|congruence].
Qed.

Lemma hasCycle_false (fuel : nat) : hasCycleContract workflow fuel.
Proof.
  induction fuel as [|fuel IH]; intros nodeId st st'; simpl; [done|].
  destruct (decide (nodeId ∈ recursionStack st)) as [|Hstack]; [done|].
  destruct (decide (nodeId ∈ cs_visited st)) as [Hin|Hnotin].
  { intros [= <-] Hfree. by split_and!. }
  destruct (forSome _ _ _) as [[[] st2]|] eqn:Hloop; [done| |done].
  intros [= <-] (Hsub & Hclosed & Hnocycle).
  destruct (forSome_hasCycle_false fuel _ IH _ _ Hloop)
    as ((Hsub2 & Hclosed2 & Hnocycle2) & Hstack2 & Hvis2 & Hsucc); simpl in *.
  { split_and!; simpl.
    - set_solver.
    - intros x y [Hx Hnx] Hxy; simpl in *.
      destruct (Hclosed x y) as [Hy Hny]; [split; set_solver|done|].
      split; simpl; set_solver.
    - intros x [Hx Hnx]; simpl in *. apply Hnocycle. split; set_solver. }
  assert (nodeId ∈ recursionStack st2) as Hon by (rewrite Hstack2; set_solver).
  assert (recursionStack st2 ∖ {[nodeId]} = recursionStack st) as Hpop
    by (rewrite Hstack2; set_solver).
  assert (∀ x, black {| cs_visited := cs_visited st2;
                        recursionStack := recursionStack st2 ∖ {[nodeId]} |} x
               → black st2 x ∨ x = nodeId) as Hcases.
  { intros x [Hx Hnx]; simpl in *.
    destruct (decide (x = nodeId)) as [|Hne]; [by right|].
    left. split; [done|]. set_solver. }
  assert (∀ x, black st2 x
               → black {| cs_visited := cs_visited st2;
                          recursionStack := recursionStack st2 ∖ {[nodeId]} |} x)
    as Hkeep.
  { intros x [Hx Hnx]. split; simpl; set_solver. }
  split_and!; simpl.
  - split_and!; simpl.
    + rewrite Hpop. set_solver.
    + intros x y [Hx| ->]%Hcases Hxy; apply Hkeep.
      * by eapply Hclosed2.
      * by apply Hsucc, edge_successorsOf.
    + intros x [Hx| ->]%Hcases Hcycle; [by eapply Hnocycle2|].
      assert (∃ y, edge workflow nodeId y ∧ rtc (edge workflow) y nodeId)
        as (y & Hy & Hback).
      { inversion Hcycle as [? ? Hxy|? y ? Hxy Hyz]; subst.
        - exists nodeId. by split.
        - exists y. split; [done|]. by apply tc_rtc. }
      assert (black st2 nodeId) as [_ Hoff]; [|done].
      eapply black_rtc; [done| |exact Hback].
      by apply Hsucc, edge_successorsOf.
  - done.
  - set_solver.
  - split; simpl; set_solver.
Qed.

(** When the check answers [false], no id that is reachable from a node of
    the workflow lies on a cycle. *)
Lemma hasCircularDependencies_false (node : NodeConfig) (x : string) :
  hasCircularDependencies workflow = false →
  node ∈ nodes workflow →
  rtc (edge workflow) (node_id node) x →
  ¬ tc (edge workflow) x x.
Proof.
  intros Hfalse Hnode Hreach.
  pose proof (hasCircularDependencies_fuel_mono workflow _ (le_n _)) as Hrun.
  rewrite Hfalse in Hrun. unfold hasCircularDependencies_fuel in Hrun.
  destruct (forSome _ _ _) as [[b st']|] eqn:Hloop; [|done].
  simpl in Hrun. injection Hrun as ->.
  destruct (forSome_hasCycle_false _ _ (hasCycle_false _) _ _ Hloop)
    as (Hfree & _ & _ & Hall).
  { split_and!; simpl.
    - done.
    - intros a b [Ha _]. simpl in Ha. set_solver.
    - intros a [Ha _]. simpl in Ha. set_solver. }
  assert (black st' x) as Hx.
  { eapply black_rtc; [done| |exact Hreach].
    apply Hall. by apply list_elem_of_fmap_2. }
  destruct Hfree as (_ & _ & Hnocycle). by apply Hnocycle.
Qed.

Lemma hasCircularDependencies_complete (node : NodeConfig) (x : string) :
  node ∈ nodes workflow →
  rtc (edge workflow) (node_id node) x →
  tc (edge workflow) x x →
  hasCircularDependencies workflow = true.
Proof.
  intros Hnode Hreach Hcycle.
  destruct (hasCircularDependencies workflow) eqn:Hres; [done|].
  by destruct (hasCircularDependencies_false node x Hres Hnode Hreach).
Qed.

Lemma validateConnection_keeps (errs : list string) (conn : NodeConnection)
    (e : string) :
  e ∈ errs → e ∈ validateConnection workflow errs conn.
Proof.
  intros He. unfold validateConnection.
  repeat case_match; rewrite ?elem_of_app; tauto.
Qed.

Lemma validateConnections_keep (conns : list NodeConnection) (e : string) :
  ∀ errs, e ∈ errs → e ∈ foldl (validateConnection workflow) errs conns.
Proof.
  induction conns as [|conn conns IH]; intros errs He; simpl; [done|].
  by apply IH, validateConnection_keeps.
Qed.

(** C5: when the connections contain a cycle among ids that are reachable
    from a trigger node, the validator reports the workflow as not valid,
    with an error that mentions "circular". *)
Theorem cycle_is_reported (x : string) :
  reachableFromTrigger workflow x →
  tc (edge workflow) x x →
  isValid (validateWorkflow workflow) = false
  ∧ ∃ e, e ∈ errors (validateWorkflow workflow) ∧ includes e "circular" = true.
Proof.
  intros (node & [_ Hnode]%list_elem_of_filter & Hreach) Hcycle.
  assert ("Workflow contains circular dependencies"
          ∈ errors (validateWorkflow workflow)) as Hin.
  { unfold validateWorkflow. simpl.
    apply validateConnections_keep.
    rewrite (hasCircularDependencies_complete node x Hnode Hreach Hcycle).
    apply elem_of_app. right. apply list_elem_of_here. }
  split; [|by eexists].
  unfold validateWorkflow in *. simpl in *.
  apply bool_decide_eq_false_2. intros Hlen.
  apply nil_length_inv in Hlen. rewrite Hlen in Hin. by apply elem_of_nil in Hin.
Qed.
End CycleDetection.

Lemma cycle_is_reported_witness :
  isValid (validateWorkflow cyclicWorkflow) = false
  ∧ ∃ e, e ∈ errors (validateWorkflow cyclicWorkflow)
         ∧ includes e "circular" = true.
Proof.
  apply (cycle_is_reported cyclicWorkflow "t").
  - exists (mkNode "t" trigger "Trigger"). split; [|apply rtc_refl].
    apply list_elem_of_filter. split; [done|apply list_elem_of_here].
  - apply (tc_l _ "t" "a" "t").
    + exists (mkConnection "c1" "t" "a" "out" "in").
      split; [apply list_elem_of_here|done].
    + apply tc_once. exists (mkConnection "c2" "a" "t" "out" "in").
      split; [apply list_elem_of_further, list_elem_of_here|done].
Defined.

(** * Further properties of the engine *)

(** ** The steps of the run loop *)

Section Steps.
Context (engine : WorkflowExecutionEngine) (env : Env).

Lemma attempted_true (workflow : Workflow) (nodeId : string) :
  attempted workflow nodeId = true ↔
  ∃ node, findBy node_id nodeId (nodes workflow) = Some node
          ∧ node_enabled node = true.
Proof.
  unfold attempted. destruct (findBy _ _ _) as [node|]; split.
  - intros Hen. by exists node.
  - by intros (node' & [= <-] & Hen).
  - done.
  - by intros (node' & ? & _).
Qed.

(** An id that names no node, or a disabled one, is passed over. *)
Lemma runNode_skipped (nodeId : string) (st : RunState) :
  attempted (rs_workflow st) nodeId = false →
  runNode engine env nodeId st = Next st.
Proof.
  unfold attempted, runNode.
  destruct (findBy _ _ _) as [node|]; [|done]. by intros ->.
Qed.

(** What an iteration does for an id that names an enabled node. *)
Lemma runNode_attempted (nodeId : string) (st : RunState) (node : NodeConfig) :
  findBy node_id nodeId (nodes (rs_workflow st)) = Some node →
  node_enabled node = true →
  runNode engine env nodeId st =
  match processorFor engine env st node nodeId (startedContext env st node) with
  | Resolved lines output =>
      Next {| rs_workflow := rs_workflow st;
              rs_execution :=
                pushNodeExecution (rs_execution st)
                  (contextCompleted (startedContext env st node) lines output
                     (env_now env (S (rs_reads st))));
              rs_reads := S (S (rs_reads st)) |}
  | Rejected lines message =>
      if bool_decide (errorHandling (settings (rs_workflow st)) = stop)
      then Break {| rs_workflow := rs_workflow st;
                    rs_execution :=
                      failExecution (rs_execution st)
                        ("Node " +:+ node_name node +:+ " failed: " +:+ message);
                    rs_reads := S (S (rs_reads st)) |}
      else Next {| rs_workflow := rs_workflow st;
                   rs_execution :=
                     pushNodeExecution (rs_execution st)
                       (contextFailed (startedContext env st node) lines message
                          (env_now env (S (rs_reads st))));
                   rs_reads := S (S (rs_reads st)) |}
  end.
Proof.
  intros Hfind Hen. unfold runNode. rewrite Hfind, Hen. reflexivity.
Qed.

(** The two ways in which [executeWorkflow] ends. *)
Lemma executeWorkflow_untriggered (workflow : Workflow) (payload : option NodeData) :
  triggerNodes workflow = [] →
  executeWorkflow engine env workflow payload =
  stampEndTime
    (failExecution (rs_execution (initialRunState env workflow payload))
       "No trigger nodes found in workflow")
    (env_now env 1).
Proof.
  intros Hnone. unfold executeWorkflow, executeWorkflow_run, tryBlock. simpl.
  by rewrite Hnone.
Qed.

Lemma executeWorkflow_triggered (workflow : Workflow) (payload : option NodeData) :
  triggerNodes workflow ≠ [] →
  executeWorkflow engine env workflow payload =
  let st := forOf (runNode engine env) (getExecutionOrder workflow)
                  (initialRunState env workflow payload) in
  stampEndTime (completeUnlessFailed (rs_execution st)) (env_now env (rs_reads st)).
Proof.
  intros Hsome. unfold executeWorkflow, executeWorkflow_run, tryBlock. simpl.
  by rewrite bool_decide_eq_false_2 by (by intros ?%nil_length_inv).
Qed.
End Steps.

(** ** What a run records *)

Section Recorded.
Context (engine : WorkflowExecutionEngine) (env : Env).

(** The ids that the loop records are, in order, the first of the ids it
    was to attempt. *)
Lemma forOf_runNode_prefix (l : list string) :
  ∀ st, ∃ done,
    recordedIds (rs_execution (forOf (runNode engine env) l st))
    = recordedIds (rs_execution st) ++ done
    ∧ done `prefix_of` filter (λ nodeId, attempted (rs_workflow st) nodeId = true) l.
Proof.
  induction l as [|nodeId l IH]; intros st; cbn [forOf].
  { exists []. by rewrite app_nil_r. }
  rewrite filter_cons.
  destruct (attempted (rs_workflow st) nodeId) eqn:Hatt.
  - apply attempted_true in Hatt as (node & Hfind & Hen).
    rewrite (runNode_attempted _ _ _ _ _ Hfind Hen).
    apply findBy_key in Hfind as Hid. rewrite decide_True by done.
    destruct (processorFor _ _ _ _ _ _) as [lines output|lines message].
    + destruct (IH {| rs_workflow := rs_workflow st;
                      rs_execution :=
                        pushNodeExecution (rs_execution st)
                          (contextCompleted (startedContext env st node) lines output
                             (env_now env (S (rs_reads st))));
                      rs_reads := S (S (rs_reads st)) |}) as (done & Hids & Hpre).
      exists (nodeId :: done). split; [|by apply prefix_cons].
      rewrite Hids. unfold recordedIds. simpl. rewrite fmap_app. simpl.
      by rewrite Hid, <- app_assoc.
    + destruct (bool_decide _).
      * exists []. split; [by rewrite app_nil_r|apply prefix_nil].
      * destruct (IH {| rs_workflow := rs_workflow st;
                        rs_execution :=
                          pushNodeExecution (rs_execution st)
                            (contextFailed (startedContext env st node) lines message
                               (env_now env (S (rs_reads st))));
                        rs_reads := S (S (rs_reads st)) |}) as (done & Hids & Hpre).
        exists (nodeId :: done). split; [|by apply prefix_cons].
        rewrite Hids. unfold recordedIds. simpl. rewrite fmap_app. simpl.
        by rewrite Hid, <- app_assoc.
  - rewrite (runNode_skipped _ _ _ _ Hatt).
    rewrite decide_False by done. apply IH.
Qed.

Lemma executeWorkflow_recorded_prefix (workflow : Workflow) (payload : option NodeData) :
  recordedIds (executeWorkflow engine env workflow payload)
  `prefix_of` filter (λ nodeId, attempted workflow nodeId = true)
                     (getExecutionOrder workflow).
Proof.
  destruct (decide (triggerNodes workflow = [])) as [Hnone|Hsome].
  - rewrite (executeWorkflow_untriggered _ _ _ _ Hnone). apply prefix_nil.
  - rewrite (executeWorkflow_triggered _ _ _ _ Hsome).
    destruct (forOf_runNode_prefix (getExecutionOrder workflow)
                (initialRunState env workflow payload)) as (done & Hids & Hpre).
    unfold recordedIds in *. simpl in *. by rewrite Hids.
Qed.

(** X1: in every run, whatever the error handling, the contexts are
    recorded in the order of the scheduler: their ids are the first of the
    scheduled ids that name an enabled node. *)
Theorem run_records_in_scheduler_order (workflow : Workflow)
    (payload : option NodeData) :
  recordedIds (executeWorkflow engine env workflow payload)
  `prefix_of` filter (λ nodeId, attempted workflow nodeId = true)
                     (getExecutionOrder workflow).
Proof. apply executeWorkflow_recorded_prefix. Qed.

(** X2: no node is run twice: the contexts of a returned execution have
    pairwise different node ids. *)
Theorem no_node_runs_twice (workflow : Workflow) (payload : option NodeData) :
  NoDup (recordedIds (executeWorkflow engine env workflow payload)).
Proof.
  destruct (executeWorkflow_recorded_prefix workflow payload) as [rest Hrest].
  assert (NoDup (filter (λ nodeId, attempted workflow nodeId = true)
                        (getExecutionOrder workflow))) as Hnodup
    by (apply (NoDup_filter (λ nodeId, attempted workflow nodeId = true)),
          getExecutionOrder_NoDup).
  rewrite Hrest in Hnodup. by apply NoDup_app in Hnodup as [? _].
Qed.

(** What an iteration does to the status and the error of the execution. *)
Lemma runNode_status (nodeId : string) (st : RunState) :
  match runNode engine env nodeId st with
  | Next st' =>
      exec_status (rs_execution st') = exec_status (rs_execution st)
      ∧ exec_error (rs_execution st') = exec_error (rs_execution st)
  | Break st' =>
      errorHandling (settings (rs_workflow st)) = stop
      ∧ exec_status (rs_execution st') = failed
      ∧ is_Some (exec_error (rs_execution st'))
  end.
Proof.
  unfold runNode. repeat case_match; simplify_eq/=; try done.
  split_and!; [by eapply bool_decide_eq_true_1|done|by eexists].
Qed.

(** X3: a returned execution is either [completed] without an error or
    [failed] with one, and its end time is set. *)
Theorem returned_status_and_error (workflow : Workflow) (payload : option NodeData) :
  let execution := executeWorkflow engine env workflow payload in
  ((exec_status execution = completed ∧ exec_error execution = None)
   ∨ (exec_status execution = failed ∧ is_Some (exec_error execution)))
  ∧ is_Some (exec_endTime execution).
Proof.
  cbv zeta. destruct (decide (triggerNodes workflow = [])) as [Hnone|Hsome].
  - rewrite (executeWorkflow_untriggered _ _ _ _ Hnone). simpl.
    split; [right|]; by eauto.
  - rewrite (executeWorkflow_triggered _ _ _ _ Hsome). simpl.
    split; [|by eexists].
    assert ((exec_status (rs_execution
               (forOf (runNode engine env) (getExecutionOrder workflow)
                  (initialRunState env workflow payload))) = running
             ∧ exec_error (rs_execution
                 (forOf (runNode engine env) (getExecutionOrder workflow)
                    (initialRunState env workflow payload))) = None)
            ∨ (exec_status (rs_execution
                 (forOf (runNode engine env) (getExecutionOrder workflow)
                    (initialRunState env workflow payload))) = failed
               ∧ is_Some (exec_error (rs_execution
                   (forOf (runNode engine env) (getExecutionOrder workflow)
                      (initialRunState env workflow payload)))))) as Hloop.
    { apply (forOf_invariant
               (λ st, (exec_status (rs_execution st) = running
                       ∧ exec_error (rs_execution st) = None)
                      ∨ (exec_status (rs_execution st) = failed
                         ∧ is_Some (exec_error (rs_execution st)))));
        [|by left].
      intros nodeId st Hst. pose proof (runNode_status nodeId st) as Hstep.
      destruct (runNode engine env nodeId st) as [st'|st'].
      - destruct Hstep as [-> ->]. done.
      - right. by destruct Hstep as (_ & ? & ?). }
    destruct Hloop as [[-> ->]|[-> Herr]]; [by left|by right].
Qed.

(** Under [continue] and [retry] the loop leaves the run [running]. *)
Lemma forOf_runNode_running (workflow : Workflow) (payload : option NodeData) :
  errorHandling (settings workflow) ≠ stop →
  let st := forOf (runNode engine env) (getExecutionOrder workflow)
                  (initialRunState env workflow payload) in
  exec_status (rs_execution st) = running ∧ exec_error (rs_execution st) = None.
Proof.
  intros Hmode. cbv zeta.
  cut (rs_workflow (forOf (runNode engine env) (getExecutionOrder workflow)
                      (initialRunState env workflow payload)) = workflow
       ∧ exec_status (rs_execution
           (forOf (runNode engine env) (getExecutionOrder workflow)
              (initialRunState env workflow payload))) = running
       ∧ exec_error (rs_execution
           (forOf (runNode engine env) (getExecutionOrder workflow)
              (initialRunState env workflow payload))) = None);
    [by intros (_ & ? & ?)|].
  apply (forOf_invariant
           (λ st, rs_workflow st = workflow
                  ∧ exec_status (rs_execution st) = running
                  ∧ exec_error (rs_execution st) = None)); [|done].
  intros nodeId st (Hwf & Hstatus & Herror).
  pose proof (runNode_status nodeId st) as Hstep.
  pose proof (runNode_workflow engine env nodeId st) as Hframe.
  destruct (runNode engine env nodeId st) as [st'|st'].
  - destruct Hstep as [-> ->]. by rewrite Hframe.
  - destruct Hstep as (Hstop & _). by rewrite Hwf in Hstop.
Qed.

(** X4: the outcome of a run under [continue] and [retry] of a workflow
    that has a trigger: it ends [completed] and without an error, also when
    processors raised, and it holds a context for every scheduled id that
    names an enabled node, in the order of the scheduler, the failed ones
    included. *)
Theorem continue_run_outcome (workflow : Workflow) (payload : option NodeData) :
  errorHandling (settings workflow) ≠ stop →
  triggerNodes workflow ≠ [] →
  let execution := executeWorkflow engine env workflow payload in
  exec_status execution = completed
  ∧ exec_error execution = None
  ∧ recordedIds execution
    = filter (λ nodeId, attempted workflow nodeId = true)
             (getExecutionOrder workflow).
Proof.
  intros Hmode Hsome. cbv zeta.
  destruct (forOf_runNode_running workflow payload Hmode) as [Hst Herr].
  split_and!; [| |by apply continue_appends_every_attempt];
    rewrite (executeWorkflow_triggered _ _ _ _ Hsome); simpl;
    by rewrite ?Hst, ?Herr.
Qed.
End Recorded.

Lemma continue_run_outcome_witness :
  let execution :=
    executeWorkflow failingAEngine exampleEnv (routedWorkflow continue) None in
  exec_status execution = completed
  ∧ exec_error execution = None
  ∧ recordedIds execution
    = filter (λ nodeId, attempted (routedWorkflow continue) nodeId = true)
             (getExecutionOrder (routedWorkflow continue)).
Proof.
  apply (continue_run_outcome failingAEngine exampleEnv
           (routedWorkflow continue) None).
  - discriminate.
  - vm_compute. discriminate.
Defined.

(** ** Routing of upstream outputs *)

Section Routing.
Context (execution : WorkflowExecution).

Lemma routeConnection_routedValue (inputData : NodeData) (connection : NodeConnection) :
  routeConnection execution inputData connection =
  match routedValue execution connection with
  | Some v => <[conn_targetInput connection := v]> inputData
  | None => inputData
  end.
Proof.
  unfold routeConnection, routedValue.
  destruct (findBy _ _ _) as [src|]; [|done]. by destruct (bool_decide _).
Qed.

Lemma routedValue_Some (connection : NodeConnection) (v : DataValue) :
  routedValue execution connection = Some v ↔
  ∃ src, findBy ctx_nodeId (conn_sourceNodeId connection)
                (nodeExecutions execution) = Some src
         ∧ ctx_status src = completed
         ∧ v = getProp (outputData src) (conn_sourceOutput connection).
Proof.
  unfold routedValue. destruct (findBy _ _ _) as [src|]; split.
  - case_bool_decide; [|done]. intros [= <-]. by exists src.
  - intros (src' & [= <-] & Hst & ->). by rewrite bool_decide_eq_true_2.
  - done.
  - by intros (src' & ? & _).
Qed.

Lemma routedValue_None (connection : NodeConnection) :
  routedValue execution connection = None ↔
  ∀ src, findBy ctx_nodeId (conn_sourceNodeId connection)
                (nodeExecutions execution) = Some src →
         ctx_status src ≠ completed.
Proof.
  unfold routedValue. destruct (findBy _ _ _) as [src|]; split.
  - case_bool_decide; [done|]. by intros _ src' [= <-].
  - intros Hsrc. rewrite bool_decide_eq_false_2; [done|]. by apply Hsrc.
  - done.
  - done.
Qed.

(** Connections that route nothing under [k] leave [k] as it was. *)
Lemma foldl_route_none (l : list NodeConnection) (k : string) :
  (∀ conn, conn ∈ l → conn_targetInput conn = k →
           routedValue execution conn = None) →
  ∀ m : NodeData, foldl (routeConnection execution) m l !! k = m !! k.
Proof.
  induction l as [|conn l IH]; intros Hnone m; simpl; [done|].
  rewrite IH by (intros conn' Hin; apply Hnone; by apply list_elem_of_further).
  rewrite routeConnection_routedValue.
  destruct (routedValue execution conn) as [v|] eqn:Hv; [|done].
  destruct (decide (conn_targetInput conn = k)) as [Hk|Hk].
  - by rewrite (Hnone conn (list_elem_of_here _ _) Hk) in Hv.
  - by rewrite lookup_insert_ne.
Qed.

(** When the connections that route something under [k] agree on the value,
    and there is one, [k] is bound to that value. *)
Lemma foldl_route_agree (l : list NodeConnection) (k : string) (v : DataValue) :
  (∃ conn, conn ∈ l ∧ conn_targetInput conn = k
           ∧ routedValue execution conn = Some v) →
  (∀ conn v', conn ∈ l → conn_targetInput conn = k →
              routedValue execution conn = Some v' → v' = v) →
  ∀ m : NodeData, foldl (routeConnection execution) m l !! k = Some v.
Proof.
  induction l as [|conn l IH] using rev_ind; intros (c & Hc & Hk & Hv) Hagree m.
  { by apply elem_of_nil in Hc. }
  rewrite foldl_app. simpl. rewrite routeConnection_routedValue.
  destruct (routedValue execution conn) as [v'|] eqn:Hv'.
  - destruct (decide (conn_targetInput conn = k)) as [Hk'|Hk'].
    + rewrite <- Hk', lookup_insert_eq. f_equal.
      apply (Hagree conn); [apply elem_of_app; right; apply list_elem_of_here|done..].
    + rewrite lookup_insert_ne by done. apply IH.
      * apply elem_of_app in Hc as [Hc|Hc]; [by exists c|].
        apply list_elem_of_singleton in Hc as ->. congruence.
      * intros c' w Hc' ??. apply (Hagree c'); [|done..].
        apply elem_of_app. by left.
  - apply IH.
    + apply elem_of_app in Hc as [Hc|Hc]; [by exists c|].
      apply list_elem_of_singleton in Hc as ->. congruence.
    + intros c' w Hc' ??. apply (Hagree c'); [|done..]. apply elem_of_app. by left.
Qed.

Context (node : NodeConfig) (workflow : Workflow).

(** X5: a key under which no incoming connection has a completed source,
    and which neither the variables nor the trigger payload define, is
    absent from the input: it is not bound at all. *)
Theorem unresolved_input_is_absent (k : string) :
  (∀ conn src,
      conn ∈ connections workflow →
      conn_targetNodeId conn = node_id node →
      conn_targetInput conn = k →
      findBy ctx_nodeId (conn_sourceNodeId conn) (nodeExecutions execution)
        = Some src →
      ctx_status src ≠ completed) →
  from_option (λ vars : NodeData, vars !! k) None (variables workflow) = None →
  (isTrigger node = true →
   from_option (λ td : NodeData, td !! k) None (triggerData execution) = None) →
  getNodeInputData node workflow execution !! k = None.
Proof.
  intros Hsrc Hvars Htd. rewrite routed_output_kept by done.
  rewrite foldl_route_none; [done|].
  intros conn [Htgt Hin]%list_elem_of_filter Hk.
  apply routedValue_None. intros src Hfind. by eapply Hsrc.
Qed.

(** X6: when several incoming connections write the same input, a key
    other than [__proto__], the last of them whose source is completed
    wins: the input is bound to the value under its source output, and to
    [undefined] when the source has no such output and the output is not
    the name of a property of [Object.prototype]. *)
Theorem last_completed_connection_wins (l1 l2 : list NodeConnection)
    (conn : NodeConnection) (src : NodeExecutionContext) :
  incomingConnections workflow (node_id node) = l1 ++ conn :: l2 →
  findBy ctx_nodeId (conn_sourceNodeId conn) (nodeExecutions execution)
    = Some src →
  ctx_status src = completed →
  assignable (conn_targetInput conn) →
  readsOwn (outputData src) (conn_sourceOutput conn) →
  (∀ conn' src',
      conn' ∈ l2 →
      conn_targetInput conn' = conn_targetInput conn →
      findBy ctx_nodeId (conn_sourceNodeId conn') (nodeExecutions execution)
        = Some src' →
      ctx_status src' ≠ completed) →
  from_option (λ vars : NodeData, vars !! conn_targetInput conn) None
              (variables workflow) = None →
  (isTrigger node = true →
   from_option (λ td : NodeData, td !! conn_targetInput conn) None
               (triggerData execution) = None) →
  getNodeInputData node workflow execution !! conn_targetInput conn
  = Some (default VUndefined (outputData src !! conn_sourceOutput conn)).
Proof.
  intros Hsplit Hfind Hdone _ _ Hlater Hvars Htd.
  rewrite routed_output_kept by done.
  rewrite Hsplit, foldl_app. simpl.
  rewrite foldl_route_none.
  - rewrite routeConnection_routedValue.
    assert (routedValue execution conn
            = Some (getProp (outputData src) (conn_sourceOutput conn))) as ->
      by (apply routedValue_Some; by exists src).
    by rewrite lookup_insert_eq.
  - intros conn' Hin Hk. apply routedValue_None. intros src' Hfind'.
    by eapply Hlater.
Qed.
End Routing.

Lemma unresolved_input_is_absent_witness :
  getNodeInputData (mkNode "t" trigger "Trigger") (routedWorkflow stop)
    (executionWith [] None) !! "in"
  = None.
Proof.
  apply (unresolved_input_is_absent (executionWith [] None)
           (mkNode "t" trigger "Trigger") (routedWorkflow stop) "in").
  - intros conn src _ _ _ Hfind. discriminate Hfind.
  - reflexivity.
  - intros _. reflexivity.
Defined.

Lemma last_completed_connection_wins_witness :
  getNodeInputData (mkNode "t" trigger "Trigger") (routedWorkflow stop)
    (executionWith [completedContext "a" {[ "out" := VNumber 7 ]}] None) !! "in"
  = Some (VNumber 7).
Proof.
  refine (last_completed_connection_wins
            (executionWith [completedContext "a" {[ "out" := VNumber 7 ]}] None)
            (mkNode "t" trigger "Trigger") (routedWorkflow stop)
            [] [] (mkConnection "c1" "a" "t" "out" "in")
            (completedContext "a" {[ "out" := VNumber 7 ]}) _ _ _ _ _ _ _ _).
  - reflexivity.
  - reflexivity.
  - reflexivity.
  - discriminate.
  - left. by exists (VNumber 7).
  - intros conn' src' Hin. by apply elem_of_nil in Hin.
  - reflexivity.
  - intros _. reflexivity.
Defined.

(** ** Outcomes of a run *)

Section Outcomes.
Context (engine : WorkflowExecutionEngine) (env : Env).


Lemma processorFor_resolves (st : RunState) (node : NodeConfig) (nodeId : string)
    (context : NodeExecutionContext) :
  allResolve engine →
  ∃ lines output,
    processorFor engine env st node nodeId context = Resolved lines output.
Proof.
  intros Hall. unfold processorFor.
  destruct (processors engine !! nodeId) as [p|] eqn:Hp; simpl.
  - by eapply Hall.
  - unfold MockAIProcessor. by eexists _, _.
Qed.



(** The loop when no processor raises. *)
Lemma forOf_runNode_resolving (l : list string) :
  allResolve engine →
  ∀ st,
    let st' := forOf (runNode engine env) l st in
    exec_status (rs_execution st') = exec_status (rs_execution st)
    ∧ exec_error (rs_execution st') = exec_error (rs_execution st)
    ∧ recordedIds (rs_execution st')
      = recordedIds (rs_execution st)
        ++ filter (λ nodeId, attempted (rs_workflow st) nodeId = true) l
    ∧ (Forall (λ c, ctx_status c = completed) (nodeExecutions (rs_execution st)) →
       Forall (λ c, ctx_status c = completed) (nodeExecutions (rs_execution st'))).
Proof.
  intros Hall. induction l as [|nodeId l IH]; intros st; cbn [forOf]; cbv zeta.
  { by rewrite app_nil_r. }
  rewrite filter_cons.
  destruct (attempted (rs_workflow st) nodeId) eqn:Hatt.
  - apply attempted_true in Hatt as (node & Hfind & Hen).
    rewrite (runNode_attempted _ _ _ _ _ Hfind Hen).
    apply findBy_key in Hfind as Hid. rewrite decide_True by done.
    destruct (processorFor_resolves st node nodeId (startedContext env st node) Hall)
      as (lines & output & ->).
    destruct (IH {| rs_workflow := rs_workflow st;
                    rs_execution :=
                      pushNodeExecution (rs_execution st)
                        (contextCompleted (startedContext env st node) lines output
                           (env_now env (S (rs_reads st))));
                    rs_reads := S (S (rs_reads st)) |})
      as (Hst & Herr & Hids & Hdone); simpl in *.
    split_and!; [done..| |].
    + rewrite Hids. unfold recordedIds. simpl. rewrite fmap_app. simpl.
      by rewrite Hid, <- app_assoc.
    + intros Hold. apply Hdone, Forall_app. split; [done|]. by apply Forall_singleton.
  - rewrite (runNode_skipped _ _ _ _ Hatt).
    rewrite decide_False by done. by apply IH.
Qed.

(** X8: when every registered processor resolves (the ids without one get
    the simulated processor, which always does), a run of a workflow that
    has a trigger records every scheduled id that names an enabled node,
    each as [completed], and ends [completed], whatever the error
    handling. *)
Theorem resolving_run_completes (workflow : Workflow) (payload : option NodeData) :
  allResolve engine →
  triggerNodes workflow ≠ [] →
  let execution := executeWorkflow engine env workflow payload in
  exec_status execution = completed
  ∧ exec_error execution = None
  ∧ recordedIds execution
    = filter (λ nodeId, attempted workflow nodeId = true)
             (getExecutionOrder workflow)
  ∧ ∀ nodeContext, nodeContext ∈ nodeExecutions execution →
                   ctx_status nodeContext = completed.
Proof.
  intros Hall Hsome. cbv zeta.
  rewrite (executeWorkflow_triggered _ _ _ _ Hsome). cbv zeta.
  destruct (forOf_runNode_resolving (getExecutionOrder workflow) Hall
              (initialRunState env workflow payload))
    as (Hst & Herr & Hids & Hdone); simpl in *.
  unfold recordedIds in *. simpl. rewrite Hst, Herr, Hids. split_and!; [done..|].
  apply Forall_forall, Hdone, Forall_nil_2.
Qed.
End Outcomes.


Lemma resolving_run_completes_witness :
  let execution :=
    executeWorkflow resolvingEngine exampleEnv (routedWorkflow stop) None in
  exec_status execution = completed
  ∧ exec_error execution = None
  ∧ recordedIds execution
    = filter (λ nodeId, attempted (routedWorkflow stop) nodeId = true)
             (getExecutionOrder (routedWorkflow stop))
  ∧ ∀ nodeContext, nodeContext ∈ nodeExecutions execution →
                   ctx_status nodeContext = completed.
Proof.
  apply (resolving_run_completes resolvingEngine exampleEnv
           (routedWorkflow stop) None).
  - intros nodeId processor context Hp. simpl in Hp.
    apply lookup_insert_Some in Hp as [[_ <-]|[_ Hp]]; [by eexists _, _|].
    apply lookup_insert_Some in Hp as [[_ <-]|[_ Hp]]; [by eexists _, _|].
    by rewrite lookup_empty in Hp.
  - vm_compute. discriminate.
Defined.

(** ** The inputs of the recorded contexts *)

(** The router reads the contexts recorded so far and the trigger payload,
    and nothing else of the execution. *)
Lemma getNodeInputData_ext (node : NodeConfig) (workflow : Workflow)
    (execution execution' : WorkflowExecution) :
  nodeExecutions execution = nodeExecutions execution' →
  triggerData execution = triggerData execution' →
  getNodeInputData node workflow execution
  = getNodeInputData node workflow execution'.
Proof.
  intros Hctx Htd. unfold getNodeInputData. rewrite Htd.
  assert (∀ l (m : NodeData),
             foldl (routeConnection execution) m l
             = foldl (routeConnection execution') m l) as ->; [|done].
  induction l as [|conn l IH]; intros m; simpl; [done|].
  rewrite IH. f_equal. unfold routeConnection. by rewrite Hctx.
Qed.

Lemma findBy_NoDup {A : Type} (key : A → string) (l : list A) (x : A) :
  NoDup (key <$> l) → x ∈ l → findBy key (key x) l = Some x.
Proof.
  unfold findBy. induction l as [|y l IH]; intros Hnodup Hx.
  { by apply elem_of_nil in Hx. }
  simpl in *. apply NoDup_cons in Hnodup as [Hy Hnodup].
  apply elem_of_cons in Hx as [->|Hx].
  - by rewrite bool_decide_eq_true_2.
  - rewrite bool_decide_eq_false_2; [by apply IH|].
    intros Heq. apply Hy. rewrite Heq. by apply list_elem_of_fmap_2.
Qed.

Section Inputs.
Context (engine : WorkflowExecutionEngine) (env : Env)
        (workflow : Workflow) (payload : option NodeData).

(** What the loop keeps of the execution record, and what it records. *)
Lemma forOf_runNode_inputs (l : list string) (st : RunState) :
  let resolved (done : list NodeExecutionContext) :=
    ∀ pre nodeContext post,
      done = pre ++ nodeContext :: post →
      ∃ node,
        findBy node_id (ctx_nodeId nodeContext) (nodes workflow) = Some node
        ∧ node_enabled node = true
        ∧ ctx_workflowId nodeContext = wf_id workflow
        ∧ ctx_executionId nodeContext = exec_id (rs_execution st)
        ∧ ∀ earlier,
            nodeExecutions earlier = pre →
            triggerData earlier = payload →
            inputData nodeContext = getNodeInputData node workflow earlier in
  rs_workflow st = workflow →
  triggerData (rs_execution st) = payload →
  resolved (nodeExecutions (rs_execution st)) →
  let st' := forOf (runNode engine env) l st in
  exec_id (rs_execution st') = exec_id (rs_execution st)
  ∧ exec_workflowId (rs_execution st') = exec_workflowId (rs_execution st)
  ∧ exec_startTime (rs_execution st') = exec_startTime (rs_execution st)
  ∧ triggerData (rs_execution st') = payload
  ∧ resolved (nodeExecutions (rs_execution st')).
Proof.
  intros resolved Hwf Htd Hres. cbv zeta.
  apply (forOf_invariant
           (λ st', rs_workflow st' = workflow
                   ∧ exec_id (rs_execution st') = exec_id (rs_execution st)
                   ∧ exec_workflowId (rs_execution st')
                     = exec_workflowId (rs_execution st)
                   ∧ exec_startTime (rs_execution st')
                     = exec_startTime (rs_execution st)
                   ∧ triggerData (rs_execution st') = payload
                   ∧ resolved (nodeExecutions (rs_execution st'))));
    [|done].
  clear l. intros nodeId s (Hwf' & Hid' & Hwid' & Hstart' & Htd' & Hres').
  destruct (attempted (rs_workflow s) nodeId) eqn:Hatt.
  2: { by rewrite (runNode_skipped _ _ _ _ Hatt). }
  apply attempted_true in Hatt as (node & Hfind & Hen).
  rewrite (runNode_attempted _ _ _ _ _ Hfind Hen).
  apply findBy_key in Hfind as Hkey.
  assert (∀ new : NodeExecutionContext,
             ctx_nodeId new = node_id node →
             ctx_workflowId new = wf_id workflow →
             ctx_executionId new = exec_id (rs_execution st) →
             inputData new = getNodeInputData node workflow (rs_execution s) →
             resolved (nodeExecutions (rs_execution s) ++ [new])) as Hpush.
  { intros new Hnid Hnwf Hnex Hin pre c post Hsplit.
    destruct post as [|p post _] using rev_ind.
    - apply app_inj_tail in Hsplit as [<- <-].
      exists node. split_and!; [|done..|].
      + rewrite Hnid, Hkey. by rewrite <- Hwf'.
      + intros earlier He1 He2. rewrite Hin.
        apply getNodeInputData_ext; congruence.
    - rewrite app_comm_cons, app_assoc in Hsplit.
      apply app_inj_tail in Hsplit as [Hold _]. by eapply Hres'. }
  destruct (processorFor _ _ _ _ _ _) as [lines output|lines message].
  - simpl. split_and!; [done..|]. apply Hpush; simpl; congruence.
  - destruct (bool_decide _); simpl; split_and!; try done.
    apply Hpush; simpl; congruence.
Qed.

Lemma executeWorkflow_inputs :
  let execution := executeWorkflow engine env workflow payload in
  exec_id execution = env_executionId env
  ∧ exec_workflowId execution = wf_id workflow
  ∧ exec_startTime execution = env_now env 0
  ∧ triggerData execution = payload
  ∧ ∀ pre nodeContext post,
      nodeExecutions execution = pre ++ nodeContext :: post →
      ∃ node,
        findBy node_id (ctx_nodeId nodeContext) (nodes workflow) = Some node
        ∧ node_enabled node = true
        ∧ ctx_workflowId nodeContext = wf_id workflow
        ∧ ctx_executionId nodeContext = env_executionId env
        ∧ ∀ earlier,
            nodeExecutions earlier = pre →
            triggerData earlier = payload →
            inputData nodeContext = getNodeInputData node workflow earlier.
Proof.
  cbv zeta. destruct (decide (triggerNodes workflow = [])) as [Hnone|Hsome].
  - rewrite (executeWorkflow_untriggered _ _ _ _ Hnone). simpl.
    split_and!; [done..|]. intros pre c post Hsplit. by destruct pre.
  - rewrite (executeWorkflow_triggered _ _ _ _ Hsome). cbv zeta.
    destruct (forOf_runNode_inputs (getExecutionOrder workflow)
                (initialRunState env workflow payload))
      as (Hid & Hwid & Hstart & Htd & Hres); simpl in *; try done.
    intros pre c post Hsplit. by destruct pre.
Qed.

(** X9: the returned record identifies the run: it carries the generated
    id, the id of the workflow and the trigger payload it was handed, and
    every context in it carries the same workflow id and execution id. *)
Theorem returned_record_identifies_run :
  let execution := executeWorkflow engine env workflow payload in
  exec_id execution = env_executionId env
  ∧ exec_workflowId execution = wf_id workflow
  ∧ triggerData execution = payload
  ∧ ∀ nodeContext,
      nodeContext ∈ nodeExecutions execution →
      ctx_workflowId nodeContext = exec_workflowId execution
      ∧ ctx_executionId nodeContext = exec_id execution.
Proof.
  destruct executeWorkflow_inputs as (Hid & Hwid & _ & Htd & Hres).
  cbv zeta in *. split_and!; [done..|].
  intros c (pre & post & Hsplit)%list_elem_of_split.
  destruct (Hres _ _ _ Hsplit) as (node & _ & _ & Hcw & Hce & _).
  by rewrite Hid, Hwid.
Qed.

(** X10: the input of every recorded context is what the router resolves
    for its node (the first node of that id, which is enabled) from the
    contexts recorded ahead of it and the trigger payload: contexts
    recorded later play no part. *)
Theorem recorded_input_is_resolved (pre post : list NodeExecutionContext)
    (nodeContext : NodeExecutionContext) :
  nodeExecutions (executeWorkflow engine env workflow payload)
    = pre ++ nodeContext :: post →
  ∃ node,
    findBy node_id (ctx_nodeId nodeContext) (nodes workflow) = Some node
    ∧ node_enabled node = true
    ∧ ∀ earlier,
        nodeExecutions earlier = pre →
        triggerData earlier = payload →
        inputData nodeContext = getNodeInputData node workflow earlier.
Proof.
  intros Hsplit. destruct executeWorkflow_inputs as (_ & _ & _ & _ & Hres).
  destruct (Hres _ _ _ Hsplit) as (node & ? & ? & _ & _ & ?). by exists node.
Qed.

(** X11: routing end to end.  When [A] is recorded as [completed] ahead of
    [B], and one connection, the only one into that input of [B], leads
    from [A] to [B], the input of [B], a key other than [__proto__], holds
    the value under the source output of [A] ([undefined] when [A] has no
    such output and the output is not the name of a property of
    [Object.prototype]), unless a workflow variable or the trigger payload
    defines that key. *)
Theorem completed_output_reaches_input (pre post : list NodeExecutionContext)
    (contextA contextB : NodeExecutionContext) (conn : NodeConnection) :
  nodeExecutions (executeWorkflow engine env workflow payload)
    = pre ++ contextB :: post →
  contextA ∈ pre →
  ctx_status contextA = completed →
  conn ∈ connections workflow →
  conn_sourceNodeId conn = ctx_nodeId contextA →
  conn_targetNodeId conn = ctx_nodeId contextB →
  assignable (conn_targetInput conn) →
  readsOwn (outputData contextA) (conn_sourceOutput conn) →
  (∀ conn', conn' ∈ connections workflow →
            conn_targetNodeId conn' = ctx_nodeId contextB →
            conn_targetInput conn' = conn_targetInput conn →
            conn' = conn) →
  from_option (λ vars : NodeData, vars !! conn_targetInput conn) None
              (variables workflow) = None →
  from_option (λ td : NodeData, td !! conn_targetInput conn) None payload = None →
  inputData contextB !! conn_targetInput conn
  = Some (default VUndefined (outputData contextA !! conn_sourceOutput conn)).
Proof.
  intros Hsplit HA Hdone Hconn Hsrc Htgt _ _ Honly Hvars Htd.
  destruct executeWorkflow_inputs as (_ & _ & _ & _ & Hres).
  destruct (Hres _ _ _ Hsplit) as (node & Hfind & _ & _ & _ & Hin).
  apply findBy_key in Hfind as Hkey.
  pose (earlier := {| exec_id := env_executionId env;
                      exec_workflowId := wf_id workflow;
                      exec_status := running;
                      exec_startTime := env_now env 0;
                      exec_endTime := None;
                      triggerData := payload;
                      nodeExecutions := pre;
                      exec_error := None |}).
  rewrite (Hin earlier eq_refl eq_refl).
  rewrite routed_output_kept by done.
  assert (NoDup (ctx_nodeId <$> pre)) as Hnodup.
  { destruct (executeWorkflow_recorded_prefix engine env workflow payload)
      as [rest Hrest].
    assert (NoDup (filter (λ nodeId, attempted workflow nodeId = true)
                          (getExecutionOrder workflow))) as Hall
      by (apply (NoDup_filter (λ nodeId, attempted workflow nodeId = true)),
            getExecutionOrder_NoDup).
    rewrite Hrest in Hall. apply NoDup_app in Hall as [Hall _].
    unfold recordedIds in Hall. rewrite Hsplit, fmap_app in Hall.
    by apply NoDup_app in Hall as [? _]. }
  assert (routedValue earlier conn
          = Some (getProp (outputData contextA) (conn_sourceOutput conn))) as Hv.
  { apply routedValue_Some. exists contextA. split_and!; [|done..].
    rewrite Hsrc. by apply findBy_NoDup. }
  apply foldl_route_agree.
  - exists conn. split_and!; [|done..].
    apply list_elem_of_filter. split; [congruence|done].
  - intros conn' v' [Htgt' Hin']%list_elem_of_filter Hk Hv'.
    assert (conn' = conn) as -> by (apply Honly; [done|congruence|done]).
    unfold getProp in Hv. congruence.
Qed.
End Inputs.

Lemma recorded_input_is_resolved_witness :
  ∃ node,
    findBy node_id (ctx_nodeId recordedT) (nodes (routedWorkflow stop)) = Some node
    ∧ node_enabled node = true
    ∧ ∀ earlier,
        nodeExecutions earlier = [recordedA] →
        triggerData earlier = None →
        inputData recordedT = getNodeInputData node (routedWorkflow stop) earlier.
Proof.
  apply (recorded_input_is_resolved resolvingEngine exampleEnv
           (routedWorkflow stop) None [recordedA] [] recordedT).
  vm_compute. reflexivity.
Defined.

Lemma completed_output_reaches_input_witness :
  inputData recordedT !! "in" = Some (VNumber 7).
Proof.
  apply (completed_output_reaches_input resolvingEngine exampleEnv
           (routedWorkflow stop) None [recordedA] [] recordedA recordedT
           (mkConnection "c1" "a" "t" "out" "in")).
  - vm_compute. reflexivity.
  - apply list_elem_of_here.
  - reflexivity.
  - apply list_elem_of_here.
  - reflexivity.
  - reflexivity.
  - discriminate.
  - left. by exists (VNumber 7).
  - intros conn' Hin _ _. by apply list_elem_of_singleton in Hin.
  - reflexivity.
  - reflexivity.
Defined.

(** ** Registering processors *)

Section Registry.
Context (engine : WorkflowExecutionEngine) (env : Env)
        (nodeId : string) (processor : Processor).

Lemma runNode_registerProcessor (x : string) (st : RunState) :
  x ≠ nodeId ∨ attempted (rs_workflow st) nodeId = false →
  runNode (registerProcessor engine nodeId processor) env x st
  = runNode engine env x st.
Proof.
  intros Hx. destruct (decide (x = nodeId)) as [->|Hne].
  - destruct Hx as [|Hatt]; [done|]. by rewrite !runNode_skipped.
  - unfold runNode, registerProcessor. simpl. by rewrite lookup_insert_ne.
Qed.

Lemma forOf_runNode_registerProcessor (l : list string) :
  ∀ st,
    nodeId ∉ l ∨ attempted (rs_workflow st) nodeId = false →
    forOf (runNode (registerProcessor engine nodeId processor) env) l st
    = forOf (runNode engine env) l st.
Proof.
  induction l as [|x l IH]; intros st Hl; cbn [forOf]; [done|].
  rewrite runNode_registerProcessor.
  2: { destruct Hl as [Hl|Hl]; [left|by right].
       intros ->. apply Hl, list_elem_of_here. }
  pose proof (runNode_workflow engine env x st) as Hframe.
  destruct (runNode engine env x st) as [st'|st']; [|done].
  apply IH. rewrite Hframe.
  destruct Hl as [Hl|Hl]; [left|by right].
  intros Hin. by apply Hl, list_elem_of_further.
Qed.

(** X12: a processor registered under an id that the run does not attempt
    (an id that is not scheduled, or that names no enabled node) changes
    nothing: the run returns the same execution as without it. *)
Theorem unattempted_registration_is_inert (workflow : Workflow)
    (payload : option NodeData) :
  nodeId ∉ getExecutionOrder workflow ∨ attempted workflow nodeId = false →
  executeWorkflow (registerProcessor engine nodeId processor) env workflow payload
  = executeWorkflow engine env workflow payload.
Proof.
  intros Hid. destruct (decide (triggerNodes workflow = [])) as [Hnone|Hsome].
  - by rewrite !executeWorkflow_untriggered.
  - rewrite !executeWorkflow_triggered by done. cbv zeta.
    by rewrite forOf_runNode_registerProcessor.
Qed.
End Registry.

Lemma unattempted_registration_is_inert_witness :
  executeWorkflow (registerProcessor failingAEngine "b" (alwaysFails "late"))
                  exampleEnv (chainWorkflow stop) None
  = executeWorkflow failingAEngine exampleEnv (chainWorkflow stop) None.
Proof.
  apply (unattempted_registration_is_inert failingAEngine exampleEnv "b"
           (alwaysFails "late") (chainWorkflow stop) None).
  left. rewrite getExecutionOrder_chain.
  intros Hin. apply list_elem_of_singleton in Hin. discriminate Hin.
Defined.

(** ** The cycle check reports cycles only *)

Section CycleSoundness.
Context (workflow : Workflow).

(** A call of [hasCycle] that answers [false] leaves the recursion stack as
    it found it. *)
Lemma hasCycle_false_stack (fuel : nat) :
  ∀ nodeId st st',
    hasCycle fuel workflow nodeId st = Some (false, st') →
    recursionStack st' = recursionStack st.
Proof.
  induction fuel as [|fuel IH]; intros nodeId st st'; simpl; [done|].
  destruct (decide (nodeId ∈ recursionStack st)) as [|Hoff]; [done|].
  destruct (decide (nodeId ∈ cs_visited st)); [by intros [= <-]|].
  assert (∀ l s s',
             forSome (hasCycle fuel workflow) l s = Some (false, s') →
             recursionStack s' = recursionStack s) as Hloop.
  { induction l as [|d l IHl]; intros s s'; simpl; [by intros [= <-]|].
    destruct (hasCycle fuel workflow d s) as [[[] t]|] eqn:Hd; [done| |done].
    intros Hl. rewrite (IHl _ _ Hl). by eapply IH. }
  destruct (forSome _ _ _) as [[[] st2]|] eqn:Hdeps; [done| |done].
  intros [= <-]. simpl. rewrite (Hloop _ _ _ Hdeps). simpl. set_solver.
Qed.

(** A call of [hasCycle] that answers [true], entered on an id that every
    id of the recursion stack reaches, found a cycle that the id reaches. *)
Lemma hasCycle_true (fuel : nat) :
  ∀ nodeId st st',
    hasCycle fuel workflow nodeId st = Some (true, st') →
    (∀ s, s ∈ recursionStack st → tc (edge workflow) s nodeId) →
    ∃ x, rtc (edge workflow) nodeId x ∧ tc (edge workflow) x x.
Proof.
  induction fuel as [|fuel IH]; intros nodeId st st'; simpl; [done|].
  destruct (decide (nodeId ∈ recursionStack st)) as [Hon|Hoff].
  { intros _ Hstack. exists nodeId. split; [done|]. by apply Hstack. }
  destruct (decide (nodeId ∈ cs_visited st)); [done|].
  assert (∀ l s s',
             forSome (hasCycle fuel workflow) l s = Some (true, s') →
             (∀ d r, d ∈ l → r ∈ recursionStack s → tc (edge workflow) r d) →
             ∃ d x, d ∈ l ∧ rtc (edge workflow) d x ∧ tc (edge workflow) x x)
    as Hloop.
  { induction l as [|d l IHl]; intros s s'; simpl; [done|].
    destruct (hasCycle fuel workflow d s) as [[[] t]|] eqn:Hd; [| |done].
    - intros _ Hstack. destruct (IH _ _ _ Hd) as (x & Hx & Hcycle).
      + intros r Hr. apply Hstack; [apply list_elem_of_here|done].
      + exists d, x. split; [apply list_elem_of_here|done].
    - intros Hl Hstack. destruct (IHl _ _ Hl) as (d' & x & Hd' & Hx & Hcycle).
      + intros d' r Hd' Hr. apply Hstack; [by apply list_elem_of_further|].
        by rewrite <- (hasCycle_false_stack _ _ _ _ Hd).
      + exists d', x. split; [by apply list_elem_of_further|done]. }
  destruct (forSome _ _ _) as [[[] st2]|] eqn:Hdeps; [|done|done].
  intros _ Hstack. destruct (Hloop _ _ _ Hdeps) as (d & x & Hd & Hx & Hcycle).
  - intros d r Hd%edge_successorsOf Hr. simpl in Hr.
    apply elem_of_union in Hr as [Hr|Hr].
    + apply elem_of_singleton in Hr as ->. by apply tc_once.
    + eapply tc_r; [by apply Hstack|done].
  - exists x. split; [|done]. eapply rtc_l; [|done]. by apply edge_successorsOf.
Qed.

Lemma hasCircularDependencies_sound :
  hasCircularDependencies workflow = true →
  ∃ node x, node ∈ nodes workflow
            ∧ rtc (edge workflow) (node_id node) x
            ∧ tc (edge workflow) x x.
Proof.
  intros Htrue.
  pose proof (hasCircularDependencies_fuel_mono workflow _ (le_n _)) as Hrun.
  rewrite Htrue in Hrun. unfold hasCircularDependencies_fuel in Hrun.
  destruct (forSome _ _ _) as [[b st']|] eqn:Hloop; [|done].
  simpl in Hrun. injection Hrun as ->.
  assert (∀ l s s',
             forSome (hasCycle (visitDepth workflow) workflow) l s = Some (true, s') →
             recursionStack s = ∅ →
             ∃ d x, d ∈ l ∧ rtc (edge workflow) d x ∧ tc (edge workflow) x x)
    as Htop.
  { induction l as [|d l IHl]; intros s s'; cbn [forSome]; [done|].
    destruct (hasCycle (visitDepth workflow) workflow d s) as [[[] t]|] eqn:Hd;
      [| |done].
    - intros _ Hempty. destruct (hasCycle_true _ _ _ _ Hd) as (x & Hx & Hcycle).
      + intros r Hr. rewrite Hempty in Hr. set_solver.
      + exists d, x. split; [apply list_elem_of_here|done].
    - intros Hl Hempty. destruct (IHl _ _ Hl) as (d' & x & Hd' & Hx & Hcycle).
      + by rewrite (hasCycle_false_stack _ _ _ _ Hd).
      + exists d', x. split; [by apply list_elem_of_further|done]. }
  destruct (Htop _ _ _ Hloop eq_refl) as (d & x & Hd & Hx & Hcycle).
  apply list_elem_of_fmap in Hd as (node & -> & Hnode). by exists node, x.
Qed.
End CycleSoundness.

(** ** What the validator reports *)

Lemma findBy_None {A : Type} (key : A → string) (k : string) (l : list A) :
  findBy key k l = None ↔ ∀ x, x ∈ l → key x ≠ k.
Proof.
  unfold findBy. induction l as [|y l IH]; simpl.
  - split; [|done]. intros _ x Hx. by apply elem_of_nil in Hx.
  - case_bool_decide as Hy.
    + split; [done|]. intros Hall. destruct (Hall y); [apply list_elem_of_here|done].
    + rewrite IH. split.
      * intros Hall x [->|Hx]%elem_of_cons; [done|by apply Hall].
      * intros Hall x Hx. by apply Hall, list_elem_of_further.
Qed.

Lemma append_inj_r (p a b : string) : p +:+ a = p +:+ b → a = b.
Proof. induction p as [|c p IH]; simpl; [done|]. intros [= Hab]. by apply IH. Qed.

Section Reports.
Context (workflow : Workflow).

Lemma validateConnection_elem (errs : list string) (conn : NodeConnection)
    (e : string) :
  e ∈ validateConnection workflow errs conn ↔
  e ∈ errs
  ∨ (findBy node_id (conn_sourceNodeId conn) (nodes workflow) = None
     ∧ e = "Connection references non-existent source node: "
           +:+ conn_sourceNodeId conn)
  ∨ (findBy node_id (conn_targetNodeId conn) (nodes workflow) = None
     ∧ e = "Connection references non-existent target node: "
           +:+ conn_targetNodeId conn).
Proof.
  unfold validateConnection.
  destruct (findBy node_id (conn_sourceNodeId conn) _),
           (findBy node_id (conn_targetNodeId conn) _);
    rewrite ?elem_of_app, ?list_elem_of_singleton; naive_solver.
Qed.

Lemma validateConnections_elem (conns : list NodeConnection) (e : string) :
  ∀ errs,
    e ∈ foldl (validateConnection workflow) errs conns ↔
    e ∈ errs
    ∨ ∃ conn, conn ∈ conns
        ∧ ((findBy node_id (conn_sourceNodeId conn) (nodes workflow) = None
            ∧ e = "Connection references non-existent source node: "
                  +:+ conn_sourceNodeId conn)
           ∨ (findBy node_id (conn_targetNodeId conn) (nodes workflow) = None
              ∧ e = "Connection references non-existent target node: "
                    +:+ conn_targetNodeId conn)).
Proof.
  induction conns as [|conn conns IH]; intros errs; simpl.
  - split; [by left|]. intros [|(conn & Hin & _)]; [done|].
    by apply elem_of_nil in Hin.
  - rewrite IH, validateConnection_elem. split.
    + intros [[He|Hnew]|(c & Hc & Hmsg)].
      * by left.
      * right. exists conn. split; [apply list_elem_of_here|done].
      * right. exists c. split; [by apply list_elem_of_further|done].
    + intros [He|(c & [->|Hc]%elem_of_cons & Hmsg)].
      * by left; left.
      * by left; right.
      * right. by exists c.
Qed.

(** Every reported error is one of four messages, each with its cause. *)
Lemma validateWorkflow_errors_elem (e : string) :
  e ∈ errors (validateWorkflow workflow) ↔
  (triggerNodes workflow = []
   ∧ e = "Workflow must have at least one trigger node")
  ∨ (hasCircularDependencies workflow = true
     ∧ e = "Workflow contains circular dependencies")
  ∨ ∃ conn, conn ∈ connections workflow
      ∧ ((findBy node_id (conn_sourceNodeId conn) (nodes workflow) = None
          ∧ e = "Connection references non-existent source node: "
                +:+ conn_sourceNodeId conn)
         ∨ (findBy node_id (conn_targetNodeId conn) (nodes workflow) = None
            ∧ e = "Connection references non-existent target node: "
                  +:+ conn_targetNodeId conn)).
Proof.
  unfold validateWorkflow. simpl. rewrite validateConnections_elem.
  assert (triggerNodes workflow = [] ↔ length (triggerNodes workflow) = 0)
    as Hnil by (split; [by intros ->|apply nil_length_inv]).
  case_bool_decide as Hlen; destruct (hasCircularDependencies workflow); simpl;
    rewrite ?elem_of_cons, ?elem_of_nil; naive_solver.
Qed.

Lemma validateWorkflow_isValid :
  isValid (validateWorkflow workflow) = true ↔
  ∀ e, e ∉ errors (validateWorkflow workflow).
Proof.
  unfold validateWorkflow. simpl. rewrite bool_decide_eq_true. split.
  - intros ->%nil_length_inv e. apply not_elem_of_nil.
  - intros Hnone. destruct (foldl _ _ _) as [|e l]; [done|].
    destruct (Hnone e). apply list_elem_of_here.
Qed.

Lemma triggerNodes_nil :
  triggerNodes workflow = [] ↔
  ∀ node, node ∈ nodes workflow → node_type node ≠ trigger.
Proof.
  unfold triggerNodes. split.
  - intros Hnil node Hin Hty.
    assert (node ∈ filter (λ node, node_type node = trigger) (nodes workflow))
      as Hf by (by apply list_elem_of_filter).
    rewrite Hnil in Hf. by apply elem_of_nil in Hf.
  - intros Hall. induction (nodes workflow) as [|node l IH]; [done|].
    rewrite filter_cons_False; [|apply Hall, list_elem_of_here].
    apply IH. intros node' Hin. by apply Hall, list_elem_of_further.
Qed.

(** X13: the missing-trigger error is reported exactly when no node of the
    workflow is a trigger. *)
Theorem missing_trigger_reported_iff :
  "Workflow must have at least one trigger node"
    ∈ errors (validateWorkflow workflow)
  ↔ ∀ node, node ∈ nodes workflow → node_type node ≠ trigger.
Proof.
  rewrite validateWorkflow_errors_elem, <- triggerNodes_nil. split.
  - intros [[? _]|[[_ ?]|(conn & _ & [[_ ?]|[_ ?]])]]; [done|simplify_eq/=..].
  - by left.
Qed.

(** X14: the circular-dependency error is reported exactly when a node of
    the workflow reaches, along connections, an id that lies on a connection
    cycle: the check misses no such cycle and reports none that is not
    there. *)
Theorem circular_dependency_reported_iff :
  "Workflow contains circular dependencies"
    ∈ errors (validateWorkflow workflow)
  ↔ ∃ node x, node ∈ nodes workflow
              ∧ rtc (edge workflow) (node_id node) x
              ∧ tc (edge workflow) x x.
Proof.
  rewrite validateWorkflow_errors_elem. split.
  - intros [[_ ?]|[[Hcycle _]|(conn & _ & [[_ ?]|[_ ?]])]]; [simplify_eq/=| |simplify_eq/=..].
    by apply hasCircularDependencies_sound.
  - intros (node & x & Hnode & Hreach & Hcycle). right; left. split; [|done].
    by eapply hasCircularDependencies_complete.
Qed.

(** X15: a dangling endpoint is reported, by its id, exactly when some
    connection has that id as its source (as its target) and no node of the
    workflow has it. *)
Theorem dangling_endpoint_reported_iff (nodeId : string) :
  ("Connection references non-existent source node: " +:+ nodeId
     ∈ errors (validateWorkflow workflow)
   ↔ ∃ conn, conn ∈ connections workflow
             ∧ conn_sourceNodeId conn = nodeId
             ∧ ∀ node, node ∈ nodes workflow → node_id node ≠ nodeId)
  ∧ ("Connection references non-existent target node: " +:+ nodeId
       ∈ errors (validateWorkflow workflow)
     ↔ ∃ conn, conn ∈ connections workflow
               ∧ conn_targetNodeId conn = nodeId
               ∧ ∀ node, node ∈ nodes workflow → node_id node ≠ nodeId).
Proof.
  rewrite !validateWorkflow_errors_elem. split; split.
  - intros [[_ ?]|[[_ ?]|(conn & Hin & [[Hnone Hmsg]|[_ ?]])]];
      [simplify_eq/=..| |simplify_eq/=].
    apply append_inj_r in Hmsg as ->. exists conn. split_and!; [done..|].
    by apply findBy_None.
  - intros (conn & Hin & <- & Hnone). right; right. exists conn.
    split; [done|]. left. split; [|done]. by apply findBy_None.
  - intros [[_ ?]|[[_ ?]|(conn & Hin & [[_ ?]|[Hnone Hmsg]])]];
      [simplify_eq/=..|].
    apply append_inj_r in Hmsg as ->. exists conn. split_and!; [done..|].
    by apply findBy_None.
  - intros (conn & Hin & <- & Hnone). right; right. exists conn.
    split; [done|]. right. split; [|done]. by apply findBy_None.
Qed.

Lemma findBy_found (k : string) :
  (∃ node, node ∈ nodes workflow ∧ node_id node = k)
  ↔ findBy node_id k (nodes workflow) ≠ None.
Proof.
  rewrite findBy_None. split.
  - intros (node & Hin & Hk) Hall. by apply (Hall node).
  - intros Hnot. destruct (findBy node_id k (nodes workflow)) as [node|] eqn:Hf.
    + exists node. split; [|by eapply findBy_key].
      unfold findBy in Hf. apply find_some in Hf as [Hin _].
      by apply list_elem_of_In.
    + destruct Hnot. by apply findBy_None.
Qed.

(** An accepted workflow has no dangling connection. *)
Lemma valid_attached :
  isValid (validateWorkflow workflow) = true → attached workflow.
Proof.
  rewrite validateWorkflow_isValid. intros Hnone conn Hin.
  split; apply findBy_found; intros Hmiss.
  - apply (Hnone ("Connection references non-existent source node: "
                  +:+ conn_sourceNodeId conn)).
    apply validateWorkflow_errors_elem. right; right. exists conn. naive_solver.
  - apply (Hnone ("Connection references non-existent target node: "
                  +:+ conn_targetNodeId conn)).
    apply validateWorkflow_errors_elem. right; right. exists conn. naive_solver.
Qed.

(** An accepted workflow has no connection cycle: every connection starts
    at a node, from which the check would have found the cycle. *)
Lemma valid_acyclic :
  isValid (validateWorkflow workflow) = true → acyclic workflow.
Proof.
  intros Hvalid x Hcycle. pose proof (valid_attached Hvalid) as Hends.
  pose proof (proj1 validateWorkflow_isValid Hvalid) as Hnone.
  assert (∃ y, edge workflow x y) as (y & conn & Hconn & Hsrc & _).
  { inversion Hcycle; subst; by eexists. }
  destruct (Hends conn Hconn) as [(node & Hnode & Hid) _].
  apply (Hnone "Workflow contains circular dependencies").
  apply validateWorkflow_errors_elem. right; left. split; [|done].
  apply (hasCircularDependencies_complete workflow node x); [done| |done].
  rewrite Hid, Hsrc. done.
Qed.

(** X16: the validator accepts a workflow exactly when it has a trigger
    node, its connections contain no cycle at all, and both ends of every
    connection are ids of nodes of the workflow. *)
Theorem validateWorkflow_accepts_iff :
  isValid (validateWorkflow workflow) = true
  ↔ (∃ node, node ∈ nodes workflow ∧ node_type node = trigger)
    ∧ acyclic workflow
    ∧ attached workflow.
Proof.
  split.
  - intros Hvalid. split_and!; [|by apply valid_acyclic|by apply valid_attached].
    pose proof (proj1 validateWorkflow_isValid Hvalid) as Hnone.
    destruct (triggerNodes workflow) as [|node l] eqn:Htrig.
    + destruct (Hnone "Workflow must have at least one trigger node").
      apply validateWorkflow_errors_elem. by left.
    + assert (node ∈ triggerNodes workflow) as Hin
        by (rewrite Htrig; apply list_elem_of_here).
      apply list_elem_of_filter in Hin as [? ?]. by exists node.
  - intros ((node & Hnode & Hty) & Hacyclic & Hends).
    apply validateWorkflow_isValid. intros e.
    rewrite validateWorkflow_errors_elem.
    intros [[Hnil _]|[[Hcycle _]|(conn & Hin & [[Hmiss _]|[Hmiss _]])]].
    + by apply (proj1 triggerNodes_nil Hnil node).
    + apply hasCircularDependencies_sound in Hcycle as (? & x & _ & _ & Hx).
      by apply (Hacyclic x).
    + by apply (proj1 (findBy_found _) (proj1 (Hends conn Hin))).
    + by apply (proj1 (findBy_found _) (proj2 (Hends conn Hin))).
Qed.
End Reports.

(** ** Required inputs *)

Section RequiredInputs.
Context (context : NodeExecutionContext).

Lemma validateInputs_step (field : string) :
  negb (hasProperty (inputData context) field)
  || readsUndefined (inputData context) field = false
  ↔ provided context field.
Proof.
  unfold provided, hasProperty, readsUndefined.
  destruct (inputData context !! field) as [v|] eqn:Hv.
  - rewrite bool_decide_eq_true_2 by (by eexists). simpl. split.
    + by intros Hu ->.
    + intros Hne. by destruct v.
  - rewrite bool_decide_eq_false_2 by (by intros [? ?]). simpl.
    by destruct (inherited field).
Qed.

(** X17: [validateInputs] returns [true] exactly when every required field
    is a property of the input, its own or inherited from
    [Object.prototype], with a value other than [undefined]; it never
    returns [false]. *)
Theorem validateInputs_returns_iff (requiredFields : list string) :
  (validateInputs context requiredFields = Returned true
   ↔ ∀ field, field ∈ requiredFields → provided context field)
  ∧ validateInputs context requiredFields ≠ Returned false.
Proof.
  induction requiredFields as [|field rest [IH1 IH2]]; simpl.
  { split; [|done]. split; [|done]. intros _ f Hf. by apply elem_of_nil in Hf. }
  pose proof (validateInputs_step field) as Hstep.
  destruct (negb _ || _).
  - split; [|done]. split; [done|]. intros Hall.
    assert (provided context field) as Hp by apply Hall, list_elem_of_here.
    by apply Hstep in Hp.
  - split; [|done]. rewrite IH1. split.
    + intros Hall f [->|Hf]%elem_of_cons; [by apply Hstep|by apply Hall].
    + intros Hall f Hf. by apply Hall, list_elem_of_further.
Qed.

(** X18: [validateInputs] throws exactly when a required field is not a
    property of the input, own or inherited, or is [undefined] there, and
    the message names the first such field in the order of
    [requiredFields]. *)
Theorem validateInputs_throws_iff (requiredFields : list string) (message : string) :
  validateInputs context requiredFields = Threw message
  ↔ ∃ present field rest,
      requiredFields = present ++ field :: rest
      ∧ (∀ f, f ∈ present → provided context f)
      ∧ ¬ provided context field
      ∧ message = "Required input field '" +:+ field +:+ "' is missing".
Proof.
  induction requiredFields as [|field rest IH]; simpl.
  { split; [done|]. intros (present & f & r & Hsplit & _). by destruct present. }
  pose proof (validateInputs_step field) as Hstep.
  destruct (negb _ || _).
  - split.
    + intros [= <-]. exists [], field, rest. split_and!; [done| |by intros ?%Hstep|done].
      intros f Hf. by apply elem_of_nil in Hf.
    + intros ([|f present] & g & r & Hsplit & Hall & Hnot & ->); simplify_eq/=.
      * done.
      * assert (provided context f) as Hp by apply Hall, list_elem_of_here.
        by apply Hstep in Hp.
  - rewrite IH. split.
    + intros (present & g & r & -> & Hall & Hnot & ->).
      exists (field :: present), g, r. split_and!; [done| |done..].
      intros f [->|Hf]%elem_of_cons; [by apply Hstep|by apply Hall].
    + intros ([|f present] & g & r & Hsplit & Hall & Hnot & ->); simplify_eq/=.
      * destruct Hnot. by apply Hstep.
      * exists present, g, r. split_and!; [done| |done..].
        intros f' Hf'. by apply Hall, list_elem_of_further.
Qed.
End RequiredInputs.

(** A field that names a property of [Object.prototype] passes on an empty
    input; a field that does not, and an own field that is [undefined],
    make the call throw. *)
Lemma validateInputs_inherited_field (context : NodeExecutionContext) :
  inputData context = {[ "amount" := VUndefined ]} →
  validateInputs context ["toString"; "constructor"] = Returned true
  ∧ validateInputs context ["toString"; "total"]
    = Threw "Required input field 'total' is missing"
  ∧ validateInputs context ["amount"]
    = Threw "Required input field 'amount' is missing".
Proof. intros Hinput. simpl. rewrite Hinput. by vm_compute. Qed.

(** ** The workflow store *)

Lemma findIndexBy_Some {A : Type} (key : A → string) (k : string) (l : list A)
    (i : nat) :
  findIndexBy key k l = Some i →
  ∃ x, l !! i = Some x ∧ key x = k
       ∧ ∀ j y, j < i → l !! j = Some y → key y ≠ k.
Proof.
  unfold findIndexBy. destruct (list_find _ l) as [[i' x]|] eqn:Hfind; [|done].
  intros [= <-]. apply list_find_Some in Hfind as (Hx & Hk & Hfirst).
  exists x. split_and!; [done..|]. intros j y Hj Hy. by eapply Hfirst.
Qed.

Lemma findIndexBy_None {A : Type} (key : A → string) (k : string) (l : list A) :
  findIndexBy key k l = None ↔ ∀ x, x ∈ l → key x ≠ k.
Proof.
  unfold findIndexBy. rewrite fmap_None, list_find_None, Forall_forall. done.
Qed.

Lemma findBy_insert_first {A : Type} (key : A → string) (k : string) (new : A) :
  ∀ (l : list A) (i : nat),
    i < length l →
    key new = k →
    (∀ j y, j < i → l !! j = Some y → key y ≠ k) →
    findBy key k (<[i := new]> l) = Some new.
Proof.
  unfold findBy. induction l as [|x l IH]; intros i Hi Hk Hfirst; simpl in *; [lia|].
  destruct i as [|i]; simpl.
  - by rewrite bool_decide_eq_true_2.
  - rewrite bool_decide_eq_false_2 by (apply (Hfirst 0); [lia|done]).
    apply IH; [lia|done|]. intros j y Hj Hy. apply (Hfirst (S j)); [lia|done].
Qed.

Lemma findBy_app_taken {A : Type} (key : A → string) (k : string) (l : list A)
    (new x : A) :
  findBy key k l = Some x → findBy key k (l ++ [new]) = Some x.
Proof.
  unfold findBy. induction l as [|y l IH]; simpl; [done|].
  by destruct (bool_decide (key y = k)).
Qed.

Lemma findBy_app_free {A : Type} (key : A → string) (k : string) (l : list A)
    (new : A) :
  findBy key k l = None →
  findBy key k (l ++ [new]) = if bool_decide (key new = k) then Some new else None.
Proof.
  unfold findBy. induction l as [|y l IH]; simpl; [done|].
  by destruct (bool_decide (key y = k)).
Qed.

Lemma filter_all {A : Type} (P : A → Prop) `{!∀ x, Decision (P x)} (l : list A) :
  (∀ x, x ∈ l → P x) → filter P l = l.
Proof.
  induction l as [|x l IH]; intros Hall; [done|].
  rewrite filter_cons_True by apply Hall, list_elem_of_here.
  f_equal. apply IH. intros y Hy. by apply Hall, list_elem_of_further.
Qed.

(** Fewer connections make no new paths. *)
Lemma tc_edge_sub (workflow workflow' : Workflow) (a b : string) :
  (∀ conn, conn ∈ connections workflow' → conn ∈ connections workflow) →
  tc (edge workflow') a b → tc (edge workflow) a b.
Proof.
  intros Hsub Hab. induction Hab as [x y Hxy|x y z Hxy _ IH].
  - apply tc_once. destruct Hxy as (conn & Hin & ? & ?). exists conn. auto.
  - eapply tc_l; [|done]. destruct Hxy as (conn & Hin & ? & ?). exists conn. auto.
Qed.

Section Store.
Context (now : Date) (state : WorkflowState) (current : StoredWorkflow).
Hypothesis Hcurrent : currentWorkflow state = Some current.

(** X19: deleting a node from the current workflow removes every node of
    that id and every connection that starts or ends at it, so it leaves
    no connection dangling that was attached before, and it creates no
    cycle. *)
Theorem deleteNode_keeps_graph_attached (nodeId : string) :
  ∃ next,
    currentWorkflow (deleteNodeFromCurrentWorkflow now state nodeId) = Some next
    ∧ (∀ node, node ∈ nodes (stored next) → node_id node ≠ nodeId)
    ∧ (∀ conn, conn ∈ connections (stored next) →
               conn_sourceNodeId conn ≠ nodeId ∧ conn_targetNodeId conn ≠ nodeId)
    ∧ (attached (stored current) → attached (stored next))
    ∧ (acyclic (stored current) → acyclic (stored next)).
Proof.
  unfold deleteNodeFromCurrentWorkflow. rewrite Hcurrent. eexists.
  split; [done|]. simpl. split_and!.
  - by intros node [? _]%list_elem_of_filter.
  - by intros conn [? _]%list_elem_of_filter.
  - intros Hatt conn [[Hsrc Htgt] Hin]%list_elem_of_filter.
    destruct (Hatt conn Hin) as [(s & Hs & Hsid) (t & Ht & Htid)].
    split; [exists s|exists t]; (split; [|done]);
      apply list_elem_of_filter; (split; [congruence|done]).
  - intros Hacyclic x Hcycle. apply (Hacyclic x).
    eapply tc_edge_sub; [|done].
    by intros conn [_ Hin]%list_elem_of_filter.
Qed.

(** X20: a node that was deleted from the current workflow is not run any
    more: no run of the resulting workflow records a context for its id. *)
Theorem deleted_node_never_runs (nodeId : string)
    (engine : WorkflowExecutionEngine) (env : Env) (payload : option NodeData)
    (next : StoredWorkflow) :
  currentWorkflow (deleteNodeFromCurrentWorkflow now state nodeId) = Some next →
  nodeId ∉ recordedIds (executeWorkflow engine env (stored next) payload).
Proof.
  unfold deleteNodeFromCurrentWorkflow. rewrite Hcurrent. intros [= <-] Hin.
  destruct (executeWorkflow_recorded_prefix engine env
              (stored (touched current
                 (filter (λ n, node_id n ≠ nodeId) (nodes (stored current)))
                 (filter (λ c, conn_sourceNodeId c ≠ nodeId
                               ∧ conn_targetNodeId c ≠ nodeId)
                         (connections (stored current))) now)) payload)
    as [rest Hrest].
  assert (nodeId ∈ recordedIds
            (executeWorkflow engine env
               (stored (touched current
                  (filter (λ n, node_id n ≠ nodeId) (nodes (stored current)))
                  (filter (λ c, conn_sourceNodeId c ≠ nodeId
                                ∧ conn_targetNodeId c ≠ nodeId)
                          (connections (stored current))) now)) payload) ++ rest)
    as Hin' by (apply elem_of_app; by left).
  rewrite <- Hrest in Hin'. apply list_elem_of_filter in Hin' as [Hatt _].
  apply attempted_true in Hatt as (node & Hfind & _). simpl in Hfind.
  apply findBy_key in Hfind as Hkey.
  unfold findBy in Hfind. apply find_some in Hfind as [Hnode _].
  apply list_elem_of_In, list_elem_of_filter in Hnode as [Hne _]. done.
Qed.

(** X21: updating a node whose id no node of the current workflow has
    changes nothing, not even [updatedAt]. *)
Theorem updateNode_unknown_id_is_ignored (payload : NodeConfig) :
  (∀ node, node ∈ nodes (stored current) → node_id node ≠ node_id payload) →
  updateNodeInCurrentWorkflow now state payload = state.
Proof.
  intros Hnone. unfold updateNodeInCurrentWorkflow. rewrite Hcurrent.
  by rewrite (proj2 (findIndexBy_None node_id _ _) Hnone).
Qed.

(** X22: updating a node whose id is taken replaces the first node of that
    id by the payload: the payload is the node then found under the id, the
    ids of the nodes and the connections are as before, so what was
    attached stays attached, and [updatedAt] is stamped. *)
Theorem updateNode_replaces_first (payload node : NodeConfig) :
  node ∈ nodes (stored current) →
  node_id node = node_id payload →
  ∃ next,
    currentWorkflow (updateNodeInCurrentWorkflow now state payload) = Some next
    ∧ findBy node_id (node_id payload) (nodes (stored next)) = Some payload
    ∧ node_id <$> nodes (stored next) = node_id <$> nodes (stored current)
    ∧ connections (stored next) = connections (stored current)
    ∧ updatedAt next = now
    ∧ (attached (stored current) → attached (stored next)).
Proof.
  intros Hnode Hid. unfold updateNodeInCurrentWorkflow. rewrite Hcurrent.
  destruct (findIndexBy node_id (node_id payload) (nodes (stored current)))
    as [index|] eqn:Hindex.
  2: { by destruct (proj1 (findIndexBy_None _ _ _) Hindex node Hnode). }
  apply findIndexBy_Some in Hindex as (old & Hold & Hkey & Hfirst).
  eexists. split; [done|]. simpl.
  assert (node_id <$> <[index := payload]> (nodes (stored current))
          = node_id <$> nodes (stored current)) as Hids.
  { rewrite list_fmap_insert. apply list_insert_id.
    by rewrite list_lookup_fmap, Hold, <- Hkey. }
  split_and!; [|done..|].
  - apply findBy_insert_first; [by eapply lookup_lt_Some|done|done].
  - intros Hatt conn Hin. destruct (Hatt conn Hin) as [Hs Ht].
    assert (∀ k, (∃ n, n ∈ nodes (stored current) ∧ node_id n = k) →
                 ∃ n, n ∈ <[index := payload]> (nodes (stored current))
                      ∧ node_id n = k) as Hkeep.
    { intros k (n & Hn & Hk).
      assert (k ∈ node_id <$> <[index := payload]> (nodes (stored current)))
        as (n' & -> & Hn')%list_elem_of_fmap
        by (rewrite Hids; apply list_elem_of_fmap; by exists n).
      by exists n'. }
    split; by apply Hkeep.
Qed.

(** X23: adding a node under an id that is already taken does not change
    which node is found under that id: the engine and the validator go on
    using the old node, and the new one is shadowed. *)
Theorem addNode_taken_id_is_shadowed (payload old : NodeConfig) :
  findBy node_id (node_id payload) (nodes (stored current)) = Some old →
  ∃ next,
    currentWorkflow (addNodeToCurrentWorkflow now state payload) = Some next
    ∧ findBy node_id (node_id payload) (nodes (stored next)) = Some old
    ∧ length (nodes (stored next)) = S (length (nodes (stored current))).
Proof.
  intros Hold. unfold addNodeToCurrentWorkflow. rewrite Hcurrent.
  eexists. split; [done|]. simpl. split.
  - by apply findBy_app_taken.
  - rewrite length_app. simpl. lia.
Qed.

(** X24: adding a node under a fresh id, one that no node has and no
    connection mentions, and deleting it again gives back the current
    workflow, up to the time of the update. *)
Theorem addNode_deleteNode_round_trip (later : Date) (payload : NodeConfig) :
  (∀ node, node ∈ nodes (stored current) → node_id node ≠ node_id payload) →
  (∀ conn, conn ∈ connections (stored current) →
           conn_sourceNodeId conn ≠ node_id payload
           ∧ conn_targetNodeId conn ≠ node_id payload) →
  ∃ next,
    currentWorkflow
      (deleteNodeFromCurrentWorkflow later
         (addNodeToCurrentWorkflow now state payload) (node_id payload))
    = Some next
    ∧ stored next = stored current
    ∧ createdAt next = createdAt current
    ∧ updatedAt next = later.
Proof.
  intros Hnodes Hconns.
  unfold deleteNodeFromCurrentWorkflow, addNodeToCurrentWorkflow.
  rewrite Hcurrent. simpl. eexists. split; [done|]. simpl.
  unfold withGraph. simpl.
  rewrite filter_app, (filter_all _ _ Hnodes), (filter_all _ _ Hconns).
  rewrite filter_cons_False by (by intros ?). rewrite app_nil_r.
  by destruct (stored current).
Qed.
End Store.

Lemma deleteNode_keeps_graph_attached_witness :
  ∃ next,
    currentWorkflow (deleteNodeFromCurrentWorkflow 5%Z exampleState "a") = Some next
    ∧ (∀ node, node ∈ nodes (stored next) → node_id node ≠ "a")
    ∧ (∀ conn, conn ∈ connections (stored next) →
               conn_sourceNodeId conn ≠ "a" ∧ conn_targetNodeId conn ≠ "a")
    ∧ (attached (stored exampleStored) → attached (stored next))
    ∧ (acyclic (stored exampleStored) → acyclic (stored next)).
Proof.
  apply (deleteNode_keeps_graph_attached 5%Z exampleState exampleStored eq_refl "a").
Defined.

Lemma deleted_node_never_runs_witness :
  "a" ∉ recordedIds (executeWorkflow failingAEngine exampleEnv
                       (stored exampleStoredWithoutA) None).
Proof.
  apply (deleted_node_never_runs 5%Z exampleState exampleStored eq_refl "a"
           failingAEngine exampleEnv None exampleStoredWithoutA).
  reflexivity.
Defined.

Lemma updateNode_unknown_id_is_ignored_witness :
  updateNodeInCurrentWorkflow 5%Z exampleState (mkNode "z" action "Z")
  = exampleState.
Proof.
  apply (updateNode_unknown_id_is_ignored 5%Z exampleState exampleStored eq_refl
           (mkNode "z" action "Z")).
  intros node Hin. simpl in Hin.
  apply elem_of_cons in Hin as [->|Hin]; [discriminate|].
  apply elem_of_cons in Hin as [->|Hin]; [discriminate|].
  apply elem_of_cons in Hin as [->|Hin]; [discriminate|].
  by apply elem_of_nil in Hin.
Defined.

Lemma updateNode_replaces_first_witness :
  ∃ next,
    currentWorkflow
      (updateNodeInCurrentWorkflow 5%Z exampleState (mkNode "a" action "A2"))
    = Some next
    ∧ findBy node_id "a" (nodes (stored next)) = Some (mkNode "a" action "A2")
    ∧ node_id <$> nodes (stored next) = node_id <$> nodes (stored exampleStored)
    ∧ connections (stored next) = connections (stored exampleStored)
    ∧ updatedAt next = 5%Z
    ∧ (attached (stored exampleStored) → attached (stored next)).
Proof.
  apply (updateNode_replaces_first 5%Z exampleState exampleStored eq_refl
           (mkNode "a" action "A2") (mkNode "a" action "A")).
  - apply list_elem_of_further, list_elem_of_here.
  - reflexivity.
Defined.

Lemma addNode_taken_id_is_shadowed_witness :
  ∃ next,
    currentWorkflow
      (addNodeToCurrentWorkflow 5%Z exampleState (mkNode "a" action "A2"))
    = Some next
    ∧ findBy node_id "a" (nodes (stored next)) = Some (mkNode "a" action "A")
    ∧ length (nodes (stored next)) = S (length (nodes (stored exampleStored))).
Proof.
  apply (addNode_taken_id_is_shadowed 5%Z exampleState exampleStored eq_refl
           (mkNode "a" action "A2") (mkNode "a" action "A")).
  reflexivity.
Defined.

Lemma addNode_deleteNode_round_trip_witness :
  ∃ next,
    currentWorkflow
      (deleteNodeFromCurrentWorkflow 6%Z
         (addNodeToCurrentWorkflow 5%Z exampleState (mkNode "z" action "Z")) "z")
    = Some next
    ∧ stored next = stored exampleStored
    ∧ createdAt next = createdAt exampleStored
    ∧ updatedAt next = 6%Z.
Proof.
  apply (addNode_deleteNode_round_trip 5%Z exampleState exampleStored eq_refl
           6%Z (mkNode "z" action "Z")).
  - intros node Hin. simpl in Hin.
    apply elem_of_cons in Hin as [->|Hin]; [discriminate|].
    apply elem_of_cons in Hin as [->|Hin]; [discriminate|].
    apply elem_of_cons in Hin as [->|Hin]; [discriminate|].
    by apply elem_of_nil in Hin.
  - intros conn Hin. simpl in Hin.
    apply elem_of_cons in Hin as [->|Hin]; [by split|].
    apply elem_of_cons in Hin as [->|Hin]; [by split|].
    by apply elem_of_nil in Hin.
Defined.

(** ** The scheduler, the run and the validator together *)

Section Upstream.
Context (workflow : Workflow).

(** X25: the order holds the ids that are upstream of a trigger node, and no
    other: the ids of the trigger nodes and of their direct and transitive
    dependencies.  An id that is only downstream of the triggers is not
    scheduled. *)
Theorem schedule_is_upstream_of_triggers (x : string) :
  x ∈ getExecutionOrder workflow ↔ reachesTrigger workflow x.
Proof. apply scheduled_iff_reachesTrigger. Qed.

(** X26: only nodes upstream of a trigger are ever run.  Every id that a
    returned execution holds a context for names an enabled node from
    which a trigger node is reached along connections; a node that is only
    downstream of the triggers is not run, whatever the processors and the
    error handling. *)
Theorem recorded_node_is_upstream_and_enabled (engine : WorkflowExecutionEngine)
    (env : Env) (payload : option NodeData) (nodeId : string) :
  nodeId ∈ recordedIds (executeWorkflow engine env workflow payload) →
  reachesTrigger workflow nodeId
  ∧ ∃ node, findBy node_id nodeId (nodes workflow) = Some node
            ∧ node_enabled node = true.
Proof.
  intros Hin.
  destruct (executeWorkflow_recorded_prefix engine env workflow payload)
    as [rest Hrest].
  assert (nodeId ∈ recordedIds (executeWorkflow engine env workflow payload)
                   ++ rest) as Hin' by (apply elem_of_app; by left).
  rewrite <- Hrest in Hin'. apply list_elem_of_filter in Hin' as [Hatt Hsched].
  split; [by apply scheduled_iff_reachesTrigger|by apply attempted_true].
Qed.

(** X27: what validation buys.  In a workflow that the validator accepts,
    every scheduled id is the id of a node, and the order is sound: the
    source of every connection into a scheduled id is scheduled before
    it. *)
Theorem validated_order_is_sound :
  isValid (validateWorkflow workflow) = true →
  (∀ x, x ∈ getExecutionOrder workflow →
        ∃ node, node ∈ nodes workflow ∧ node_id node = x)
  ∧ ∀ conn, conn ∈ connections workflow →
            conn_targetNodeId conn ∈ getExecutionOrder workflow →
            before (conn_sourceNodeId conn) (conn_targetNodeId conn)
                   (getExecutionOrder workflow).
Proof.
  intros Hvalid. split.
  - intros x (t & Ht & Hreach)%scheduled_iff_reachesTrigger.
    apply list_elem_of_filter in Ht as [_ Ht].
    inversion Hreach as [|? y ? (conn & Hconn & Hsrc & _) _]; subst;
      [by exists t|].
    destruct (valid_attached workflow Hvalid conn Hconn) as [Hsource _]. done.
  - intros conn Hconn Htgt.
    destruct (getExecutionOrder_state workflow) as (st & Hst & Horder).
    rewrite Horder in *.
    destruct (forEach_visit_sound _ _ _
                (visit_sound _ (valid_acyclic workflow Hvalid) _) _ _ Hst)
      as [[_ Hord] _].
    + split; simpl; [intros x Hx; by apply elem_of_nil in Hx|].
      intros a b _ Hb. by apply elem_of_nil in Hb.
    + intros d g _ [Hg _]. simpl in Hg. set_solver.
    + apply Hord; [|done]. by exists conn.
Qed.
End Upstream.

Lemma recorded_node_is_upstream_and_enabled_witness :
  reachesTrigger (routedWorkflow stop) "a"
  ∧ ∃ node, findBy node_id "a" (nodes (routedWorkflow stop)) = Some node
            ∧ node_enabled node = true.
Proof.
  apply (recorded_node_is_upstream_and_enabled (routedWorkflow stop)
           resolvingEngine exampleEnv None "a").
  vm_compute. apply list_elem_of_here.
Defined.

Lemma validated_order_is_sound_witness :
  (∀ x, x ∈ getExecutionOrder (routedWorkflow stop) →
        ∃ node, node ∈ nodes (routedWorkflow stop) ∧ node_id node = x)
  ∧ ∀ conn, conn ∈ connections (routedWorkflow stop) →
            conn_targetNodeId conn ∈ getExecutionOrder (routedWorkflow stop) →
            before (conn_sourceNodeId conn) (conn_targetNodeId conn)
                   (getExecutionOrder (routedWorkflow stop)).
Proof.
  apply (validated_order_is_sound (routedWorkflow stop)).
  vm_compute. reflexivity.
Defined.

(** ** The connections of the store's current workflow *)

(** A path of the graph with one more connection either is a path of the
    old graph or runs through the new connection: it reaches the source of
    the connection in the old graph, and its end is reached from the target
    of the connection in the old graph. *)
Lemma tc_edge_added (workflow workflow' : Workflow) (payload : NodeConnection)
    (a b : string) :
  connections workflow' = connections workflow ++ [payload] →
  tc (edge workflow') a b →
  tc (edge workflow) a b
  ∨ (rtc (edge workflow) a (conn_sourceNodeId payload)
     ∧ rtc (edge workflow) (conn_targetNodeId payload) b).
Proof.
  intros Hconns Hab.
  assert (∀ x y, edge workflow' x y →
                 edge workflow x y
                 ∨ (x = conn_sourceNodeId payload ∧ y = conn_targetNodeId payload))
    as Hedge.
  { intros x y (conn & Hin & Hsrc & Htgt). rewrite Hconns in Hin.
    apply elem_of_app in Hin as [Hin|Hin].
    - left. by exists conn.
    - apply list_elem_of_singleton in Hin as ->. by right. }
  induction Hab as [x y Hxy|x y z Hxy _ IH].
  - destruct (Hedge _ _ Hxy) as [Hold|[-> ->]]; [left; by apply tc_once|by right].
  - destruct (Hedge _ _ Hxy) as [Hold|[-> ->]], IH as [Hyz|[Hys Htz]].
    + left. by eapply tc_l.
    + right. split; [by eapply rtc_l|done].
    + right. split; [done|by apply tc_rtc].
    + by right.
Qed.

Section StoreConnections.
Context (now : Date) (state : WorkflowState) (current : StoredWorkflow).
Hypothesis Hcurrent : currentWorkflow state = Some current.

(** X28: deleting a connection from the current workflow removes every
    connection of that id and leaves the nodes alone.  It leaves attached
    what was attached and creates no cycle, and it schedules no node that
    was not scheduled before. *)
Theorem deleteConnection_shrinks_schedule (connectionId : string) :
  ∃ next,
    currentWorkflow (deleteConnectionFromCurrentWorkflow now state connectionId)
    = Some next
    ∧ nodes (stored next) = nodes (stored current)
    ∧ (∀ conn, conn ∈ connections (stored next) → conn_id conn ≠ connectionId)
    ∧ (attached (stored current) → attached (stored next))
    ∧ (acyclic (stored current) → acyclic (stored next))
    ∧ ∀ x, x ∈ getExecutionOrder (stored next) →
           x ∈ getExecutionOrder (stored current).
Proof.
  unfold deleteConnectionFromCurrentWorkflow. rewrite Hcurrent. eexists.
  split; [done|]. simpl. split_and!.
  - done.
  - by intros conn [? _]%list_elem_of_filter.
  - intros Hatt conn [_ Hin]%list_elem_of_filter. apply (Hatt conn Hin).
  - intros Hacyclic x Hcycle. apply (Hacyclic x).
    eapply tc_edge_sub; [|done].
    by intros conn [_ Hin]%list_elem_of_filter.
  - intros x (t & Ht & Hreach)%scheduled_iff_reachesTrigger.
    apply scheduled_iff_reachesTrigger. exists t. split; [done|].
    eapply rtc_subrel; [|done].
    intros a b (conn & [_ Hin]%list_elem_of_filter & ? & ?). by exists conn.
Qed.

(** X29: adding a connection to the current workflow checks nothing.  The
    graph is attached afterwards exactly when it was before and both ends
    of the new connection are ids of nodes; it is free of cycles afterwards
    exactly when it was before and the target of the new connection did not
    already reach its source. *)
Theorem addConnection_attached_acyclic_iff (payload : NodeConnection) :
  ∃ next,
    currentWorkflow (addConnectionToCurrentWorkflow now state payload) = Some next
    ∧ nodes (stored next) = nodes (stored current)
    ∧ connections (stored next) = connections (stored current) ++ [payload]
    ∧ (attached (stored next)
       ↔ attached (stored current)
         ∧ (∃ node, node ∈ nodes (stored current)
                    ∧ node_id node = conn_sourceNodeId payload)
         ∧ (∃ node, node ∈ nodes (stored current)
                    ∧ node_id node = conn_targetNodeId payload))
    ∧ (acyclic (stored next)
       ↔ acyclic (stored current)
         ∧ ¬ rtc (edge (stored current))
                 (conn_targetNodeId payload) (conn_sourceNodeId payload)).
Proof.
  unfold addConnectionToCurrentWorkflow. rewrite Hcurrent. eexists.
  split; [done|]. simpl. split_and!; [done..| |].
  - unfold attached. simpl. split.
    + intros Hatt. split.
      * intros conn Hin. apply Hatt, elem_of_app. by left.
      * apply Hatt, elem_of_app. right. apply list_elem_of_here.
    + intros (Hatt & Hsrc & Htgt) conn [Hin|Hin]%elem_of_app; [by apply Hatt|].
      by apply list_elem_of_singleton in Hin as ->.
  - split.
    + intros Hacyclic. split.
      * intros x Hcycle. apply (Hacyclic x). eapply tc_edge_sub; [|done].
        intros conn Hin. simpl. apply elem_of_app. by left.
      * intros Hback. apply (Hacyclic (conn_sourceNodeId payload)).
        eapply tc_rtc_r.
        -- apply tc_once. exists payload. split; [|done].
           simpl. apply elem_of_app. right. apply list_elem_of_here.
        -- eapply rtc_subrel; [|done].
           intros a b (conn & Hin & ? & ?). exists conn. split; [|done].
           simpl. apply elem_of_app. by left.
    + intros [Hacyclic Hback] x Hcycle.
      apply (tc_edge_added (stored current) _ payload) in Hcycle
        as [Hold|[Hxs Htx]]; [| |done].
      * by apply (Hacyclic x).
      * apply Hback. by etrans.
Qed.

(** X30: a connection into a node that is not scheduled does not change
    what is scheduled: the ids in the order are the same before and after
    it is added.  In general, adding a connection unschedules nothing. *)
Theorem addConnection_into_unscheduled_target (payload : NodeConnection)
    (next : StoredWorkflow) :
  currentWorkflow (addConnectionToCurrentWorkflow now state payload) = Some next →
  (∀ x, x ∈ getExecutionOrder (stored current) →
        x ∈ getExecutionOrder (stored next))
  ∧ (conn_targetNodeId payload ∉ getExecutionOrder (stored current) →
     ∀ x, x ∈ getExecutionOrder (stored next) →
          x ∈ getExecutionOrder (stored current)).
Proof.
  unfold addConnectionToCurrentWorkflow. rewrite Hcurrent. intros [= <-].
  simpl. split.
  - intros x (t & Ht & Hreach)%scheduled_iff_reachesTrigger.
    apply scheduled_iff_reachesTrigger. exists t. split; [done|].
    eapply rtc_subrel; [|done].
    intros a b (conn & Hin & ? & ?). exists conn. split; [|done].
    simpl. apply elem_of_app. by left.
  - intros Htarget x (t & Ht & Hreach)%scheduled_iff_reachesTrigger.
    apply scheduled_iff_reachesTrigger. exists t. split; [done|].
    apply rtc_tc in Hreach as [<-|Hreach]; [done|].
    apply (tc_edge_added (stored current) _ payload) in Hreach
      as [Hold|[_ Htt]]; [| |done].
    + by apply tc_rtc.
    + destruct Htarget. apply scheduled_iff_reachesTrigger. by exists t.
Qed.
End StoreConnections.

Lemma deleteConnection_shrinks_schedule_witness :
  ∃ next,
    currentWorkflow (deleteConnectionFromCurrentWorkflow 5%Z exampleState "c2")
    = Some next
    ∧ nodes (stored next) = nodes (stored exampleStored)
    ∧ (∀ conn, conn ∈ connections (stored next) → conn_id conn ≠ "c2")
    ∧ (attached (stored exampleStored) → attached (stored next))
    ∧ (acyclic (stored exampleStored) → acyclic (stored next))
    ∧ ∀ x, x ∈ getExecutionOrder (stored next) →
           x ∈ getExecutionOrder (stored exampleStored).
Proof.
  apply (deleteConnection_shrinks_schedule 5%Z exampleState exampleStored
           eq_refl "c2").
Defined.

Lemma addConnection_attached_acyclic_iff_witness :
  ∃ next,
    currentWorkflow
      (addConnectionToCurrentWorkflow 5%Z exampleState
         (mkConnection "c3" "b" "a" "out" "back"))
    = Some next
    ∧ nodes (stored next) = nodes (stored exampleStored)
    ∧ connections (stored next)
      = connections (stored exampleStored)
        ++ [mkConnection "c3" "b" "a" "out" "back"]
    ∧ (attached (stored next)
       ↔ attached (stored exampleStored)
         ∧ (∃ node, node ∈ nodes (stored exampleStored) ∧ node_id node = "b")
         ∧ (∃ node, node ∈ nodes (stored exampleStored) ∧ node_id node = "a"))
    ∧ (acyclic (stored next)
       ↔ acyclic (stored exampleStored)
         ∧ ¬ rtc (edge (stored exampleStored)) "a" "b").
Proof.
  apply (addConnection_attached_acyclic_iff 5%Z exampleState exampleStored
           eq_refl (mkConnection "c3" "b" "a" "out" "back")).
Defined.

Lemma addConnection_into_unscheduled_target_witness :
  (∀ x, x ∈ getExecutionOrder (stored exampleStored) →
        x ∈ getExecutionOrder (stored exampleStoredWithBack))
  ∧ ("a" ∉ getExecutionOrder (stored exampleStored) →
     ∀ x, x ∈ getExecutionOrder (stored exampleStoredWithBack) →
          x ∈ getExecutionOrder (stored exampleStored)).
Proof.
  apply (addConnection_into_unscheduled_target 5%Z exampleState exampleStored
           eq_refl (mkConnection "c3" "b" "a" "out" "back")
           exampleStoredWithBack).
  reflexivity.
Defined.
